(** * HriPhysio core: the ring buffer and the graph, embedded and verified

    Two components of [HriPhysioLib] are modelled here, each from its source:

    - [include/HriPhysio/Core/ringBuffer.h], the class template
      [hriPhysio::Core::RingBuffer<T>], in module [RingBufferModel];
    - [src/graph.cpp], the class [hriPhysio::Core::Graph], in module
      [GraphModel].

    Conventions of the embedding.

    - [std::size_t] is a 64-bit unsigned integer: a value is a [Z] in
      [0, 2^64) and every arithmetic result is reduced by [size_t]
      (that is, modulo [2^64]), as the C++ unsigned arithmetic does.
    - [int] is a [Z]; signed overflow is undefined in C++, so the theorems
      that count or add [int]s state the range in which they speak.
    - [std::unique_ptr<T[]>] and [std::vector<X>] are [list]s, read with
      stdpp's lookup [!!] and written with stdpp's insert.
    - The execution is sequential: one thread calls the operations one
      after the other, so each call finds the [std::mutex] of the ring
      buffer free and the definitions are the bodies run under the lock.
      The one place where a function takes the lock while its caller
      holds it, [resize] calling [clear], is modelled as what it is: a
      call that does not return. The diagnostics written to [std::cerr]
      when [warnings] is set are left out (they change neither state nor
      return value). *)

From Stdlib Require Import ZArith Lia Floats.SpecFloat.
From stdpp Require Import base tactics option list numbers strings pretty relations.

Local Open Scope Z_scope.

(* ===================================================================== *)
(** * The ring buffer *)
(* ===================================================================== *)

Module RingBufferModel.

(** [std::size_t] arithmetic: results are reduced modulo [2^64]. *)
Definition SIZE_WIDTH : Z := 64.
Definition size_t (x : Z) : Z := x mod 2 ^ SIZE_WIDTH.

(** The largest number of elements [std::make_unique<T[]>] can give: an
    array object is never larger than [PTRDIFF_MAX] bytes. *)
Definition PTRDIFF_MAX : Z := 2 ^ 63 - 1.

Section WithElement.

(** The element type [T]; [inhabitant] stands for the value-initialised
    [T{}]. *)
Context {T : Type} `{!Inhabited T}.

(** ** Member variables *)

Record RingBuffer : Type := mkRingBuffer {
  buffer : list T;          (* std::unique_ptr<T[]> buffer *)
  buffer_length : Z;        (* std::size_t buffer_length   *)
  buffer_head : Z;          (* std::size_t buffer_head     *)
  buffer_tail : Z;          (* std::size_t buffer_tail     *)
  buffer_size : Z;          (* std::size_t buffer_size     *)
  warnings : bool
}.

(** [buffer[i]] as an rvalue and [buffer[i] = x]. Outside the allocated
    range both are undefined in C++; here the read gives [T{}] and the
    write does nothing, and [allocated] below excludes the case. *)
Definition buf_at (b : list T) (i : Z) : T :=
  default inhabitant (b !! Z.to_nat i).

Definition buf_set (b : list T) (i : Z) (x : T) : list T :=
  <[Z.to_nat i := x]> b.

(** [std::fill(first, first + n, v)]. *)
Definition fill (b : list T) (n : Z) (v : T) : list T :=
  replicate (Z.to_nat n `min` Datatypes.length b) v ++ drop (Z.to_nat n) b.

(** ** Constructor, [setWarnings] *)

Definition construct (length : Z) : RingBuffer :=
  {| buffer := replicate (Z.to_nat length) inhabitant;
     buffer_length := length;
     buffer_head := 0; buffer_tail := 0; buffer_size := 0;
     warnings := false |}.


(** ** Queries *)

Definition empty (rb : RingBuffer) : bool := buffer_size rb =? 0.

Definition full (rb : RingBuffer) : bool := buffer_size rb >=? buffer_length rb.

Definition size (rb : RingBuffer) : Z := buffer_size rb.

Definition length (rb : RingBuffer) : Z := buffer_length rb.

(** ** [clear] *)

Definition clear (rb : RingBuffer) : RingBuffer :=
  {| buffer := fill (buffer rb) (buffer_length rb) inhabitant;
     buffer_length := buffer_length rb;
     buffer_head := 0; buffer_tail := 0; buffer_size := 0;
     warnings := warnings rb |}.

(** ** The lock

    Every member function that reads or writes the array opens with
    [std::scoped_lock guard(lock)] on the member [std::mutex lock], which
    is not recursive, and releases it when it leaves. A call made by the
    client finds the mutex [Free]. A function called while its caller
    still holds the mutex finds it [Held]: C++ leaves locking a
    [std::mutex] that the thread already owns undefined, and with the
    usual implementation the thread waits for itself, so the call never
    returns. [completion] records how a call ends, each time with the
    members as the call leaves them. *)

Inductive mutex : Type := Free | Held.

Inductive completion : Type :=
  | Returns (rb : RingBuffer)   (* the call returns                      *)
  | Throws (rb : RingBuffer)    (* an exception leaves the call          *)
  | Blocks (rb : RingBuffer).   (* the call waits for the lock for ever  *)

(** [std::scoped_lock guard(lock); body], on a mutex found in state [m]. *)
Definition scoped_lock (m : mutex) (body : RingBuffer → completion)
    (rb : RingBuffer) : completion :=
  match m with
  | Free => body rb
  | Held => Blocks rb
  end.

(** [clear()] as a call that finds the mutex in state [m]; [clear] above
    is the body it runs once it has the lock. *)
Definition clear_call (m : mutex) (rb : RingBuffer) : completion :=
  scoped_lock m (λ rb, Returns (clear rb)) rb.

(** [std::make_unique<T[]>(n)]: [n] value-initialised cells, or an
    exception ([None]) when no array of [n] elements can exist. A smaller
    request fails as well when the memory is used up; the model takes it
    to succeed. *)
Definition make_unique (n : Z) : option (list T) :=
  if n >? PTRDIFF_MAX then None
  else Some (replicate (Z.to_nat n) inhabitant).

(** ** [resize]

    [resize], called by the client, takes the lock, assigns
    [buffer_length], allocates and assigns [buffer], and then calls
    [clear()] with the lock still held (its comment at that call reads
    "Unlock the mutex and return"): the [scoped_lock] of [clear] finds
    the mutex [Held]. When the allocation throws, [buffer_length] is
    already assigned and [buffer] is not. *)

Definition resize (rb : RingBuffer) (length : Z) : completion :=
  scoped_lock Free (λ rb,
    let rb1 :=
      {| buffer := buffer rb; buffer_length := length;
         buffer_head := buffer_head rb; buffer_tail := buffer_tail rb;
         buffer_size := buffer_size rb; warnings := warnings rb |} in
    match make_unique (buffer_length rb1) with
    | None => Throws rb1
    | Some cells =>
        let rb2 :=
          {| buffer := cells; buffer_length := buffer_length rb1;
             buffer_head := buffer_head rb1; buffer_tail := buffer_tail rb1;
             buffer_size := buffer_size rb1; warnings := warnings rb1 |} in
        clear_call Held rb2
    end) rb.

(** ** The two recurring statement groups

    [retire rb n] is
    [buffer_head = (buffer_head + n) % buffer_length; buffer_size -= n;]
    (with [n = 1] it is the pair [...; --buffer_size;]), and
    [push_back rb item] is
    [buffer[buffer_tail] = item;
     buffer_tail = (buffer_tail + 1) % buffer_length; ++buffer_size;]. *)

Definition retire (rb : RingBuffer) (n : Z) : RingBuffer :=
  {| buffer := buffer rb; buffer_length := buffer_length rb;
     buffer_head := size_t (buffer_head rb + n) mod buffer_length rb;
     buffer_tail := buffer_tail rb;
     buffer_size := size_t (buffer_size rb - n);
     warnings := warnings rb |}.

Definition push_back (rb : RingBuffer) (item : T) : RingBuffer :=
  {| buffer := buf_set (buffer rb) (buffer_tail rb) item;
     buffer_length := buffer_length rb;
     buffer_head := buffer_head rb;
     buffer_tail := size_t (buffer_tail rb + 1) mod buffer_length rb;
     buffer_size := size_t (buffer_size rb + 1);
     warnings := warnings rb |}.

(** ** [bool enqueue(const T& item)] *)

Definition enqueue (rb : RingBuffer) (item : T) : bool * RingBuffer :=
  if buffer_length rb =? 0 then (false, rb)
  else
    let rb1 := if full rb then retire rb 1 else rb in
    (true, push_back rb1 item).

(** ** [bool enqueue(const T* items, const std::size_t length)]

    [enqueue_loop n idx items rb] runs the [n] remaining iterations of
    [for (idx; idx < length; ++idx)]. *)

Fixpoint enqueue_loop (n : nat) (idx : Z) (items : list T) (rb : RingBuffer)
  : RingBuffer :=
  match n with
  | O => rb
  | S n' => enqueue_loop n' (idx + 1) items (push_back rb (buf_at items idx))
  end.

Definition enqueue_bulk (rb : RingBuffer) (items : list T) (length : Z)
  : bool * RingBuffer :=
  if (length >? buffer_length rb) || (buffer_length rb =? 0) then (false, rb)
  else
    let rb1 :=
      if size_t (buffer_size rb + length) >=? buffer_length rb
      then retire rb length else rb in
    (true, enqueue_loop (Z.to_nat length) 0 items rb1).

(** ** [std::optional<T> dequeue()] *)

Definition dequeue (rb : RingBuffer) : option T * RingBuffer :=
  if buffer_length rb =? 0 then (None, rb)
  else if empty rb then (None, rb)
  else
    let item := buf_at (buffer rb) (buffer_head rb) in
    (Some item, retire rb 1).

(** ** [bool dequeue(T* items, std::size_t length, std::size_t overlap)]

    The caller's array [items] is a list; the result carries the array
    after the call. [dequeue_loop n idx keep buffer_pos items rb] runs the
    [n] remaining iterations of the copy loop. *)

Fixpoint dequeue_loop (n : nat) (idx keep buffer_pos : Z) (items : list T)
    (rb : RingBuffer) : list T * RingBuffer :=
  match n with
  | O => (items, rb)
  | S n' =>
      let items' := buf_set items idx (buf_at (buffer rb) buffer_pos) in
      let buffer_pos' := size_t (buffer_pos + 1) mod buffer_length rb in
      let rb' := if idx <? keep then retire rb 1 else rb in
      dequeue_loop n' (idx + 1) keep buffer_pos' items' rb'
  end.

Definition dequeue_bulk (rb : RingBuffer) (items : list T) (length overlap : Z)
  : bool * list T * RingBuffer :=
  if (length >? buffer_length rb) || (buffer_length rb =? 0)
     || (overlap >? length)
  then (false, items, rb)
  else if length >? buffer_size rb then (false, items, rb)
  else
    let keep := size_t (length - overlap) in
    let '(items', rb') :=
      dequeue_loop (Z.to_nat length) 0 keep (buffer_head rb) items rb in
    (true, items', rb').

(** ** [std::optional<T> front() const] *)

Definition front (rb : RingBuffer) : option T :=
  if buffer_length rb =? 0 then None
  else if empty rb then None
  else Some (buf_at (buffer rb) (buffer_head rb)).

(** ** Bulk [front]

    The header declares it [bool front(T& item)], while its body and its
    doc comment work on [items] and [length]; the body is what is
    modelled, with [items] and [length] as its parameters. *)

Fixpoint front_loop (n : nat) (idx temp_head : Z) (items : list T)
    (rb : RingBuffer) : list T :=
  match n with
  | O => items
  | S n' =>
      let items' := buf_set items idx (buf_at (buffer rb) temp_head) in
      let temp_head' := size_t (temp_head + 1) mod buffer_length rb in
      front_loop n' (idx + 1) temp_head' items' rb
  end.

Definition front_bulk (rb : RingBuffer) (items : list T) (length : Z)
  : bool * list T :=
  if (length >? buffer_length rb) || (buffer_length rb =? 0)
  then (false, items)
  else if length >? buffer_size rb then (false, items)
  else (true, front_loop (Z.to_nat length) 0 (buffer_head rb) items rb).

(** ** Well-formedness and the state invariants

    [allocated]: the backing array has exactly [buffer_length] elements
    and is an array that can exist. [invariant]: the relations between
    the four counters. For [buffer_length = 0] the last conjunct reads
    [buffer_tail = buffer_head + buffer_size], by [Z.modulo]'s value at
    divisor [0]. *)

Definition allocated (rb : RingBuffer) : Prop :=
  Z.of_nat (Datatypes.length (buffer rb)) = buffer_length rb
  ∧ buffer_length rb ≤ PTRDIFF_MAX.

Definition invariant (rb : RingBuffer) : Prop :=
  0 ≤ buffer_size rb ≤ buffer_length rb
  ∧ (0 < buffer_length rb →
       0 ≤ buffer_head rb < buffer_length rb
       ∧ 0 ≤ buffer_tail rb < buffer_length rb)
  ∧ buffer_tail rb = (buffer_head rb + buffer_size rb) mod buffer_length rb.

(** ** The stored elements, oldest first

    [read_from b cap pos n] reads [n] elements of [b] from index [pos] on,
    stepping by [(pos + 1) % cap], the way the copy loops of the bulk
    [dequeue] and [front] walk the array. *)

Fixpoint read_from (b : list T) (cap pos : Z) (n : nat) : list T :=
  match n with
  | O => []
  | S n' => buf_at b pos :: read_from b cap ((pos + 1) mod cap) n'
  end.

Definition contents (rb : RingBuffer) : list T :=
  read_from (buffer rb) (buffer_length rb) (buffer_head rb)
            (Z.to_nat (buffer_size rb)).

(** ** Client drivers: a run of single enqueues, a run of single dequeues *)

Fixpoint enqueue_all (rb : RingBuffer) (xs : list T) : list bool * RingBuffer :=
  match xs with
  | [] => ([], rb)
  | x :: xs' =>
      let '(ok, rb1) := enqueue rb x in
      let '(oks, rb2) := enqueue_all rb1 xs' in
      (ok :: oks, rb2)
  end.

Fixpoint dequeue_many (n : nat) (rb : RingBuffer) : list (option T) * RingBuffer :=
  match n with
  | O => ([], rb)
  | S n' =>
      let '(o, rb1) := dequeue rb in
      let '(os, rb2) := dequeue_many n' rb1 in
      (o :: os, rb2)
  end.

(** ** The operations as labelled steps *)

Inductive call : Type :=
  | Resize (length : Z)
  | Clear
  | Enqueue (item : T)
  | EnqueueBulk (items : list T) (length : Z)
  | Dequeue
  | DequeueBulk (items : list T) (length overlap : Z)
  | Front
  | FrontBulk (items : list T) (length : Z).

(** What the caller gets: the return value, or [Thrown] when an exception
    leaves the call, or [Blocked] when the call never returns. With every
    reply comes the buffer as the call leaves it. *)
Inductive reply : Type :=
  | Void
  | Flag (ok : bool)
  | Item (o : option T)
  | Copied (ok : bool) (items : list T)
  | Thrown
  | Blocked.

Definition exec (c : call) (rb : RingBuffer) : reply * RingBuffer :=
  match c with
  | Resize n =>
      match resize rb n with
      | Returns rb' => (Void, rb')
      | Throws rb' => (Thrown, rb')
      | Blocks rb' => (Blocked, rb')
      end
  | Clear => (Void, clear rb)
  | Enqueue x => let '(ok, rb') := enqueue rb x in (Flag ok, rb')
  | EnqueueBulk xs n => let '(ok, rb') := enqueue_bulk rb xs n in (Flag ok, rb')
  | Dequeue => let '(o, rb') := dequeue rb in (Item o, rb')
  | DequeueBulk out n ov =>
      let '(ok, out', rb') := dequeue_bulk rb out n ov in (Copied ok out', rb')
  | Front => (Item (front rb), rb)
  | FrontBulk out n =>
      let '(ok, out') := front_bulk rb out n in (Copied ok out', rb)
  end.

(** The reply reports a failure through the return value: [false], or an
    empty optional. *)
Definition failed (r : reply) : bool :=
  match r with
  | Void => false
  | Flag ok => negb ok
  | Item o => match o with Some _ => false | None => true end
  | Copied ok _ => negb ok
  | Thrown | Blocked => false
  end.

(** The call came back to the caller with a return value. *)
Definition returned (r : reply) : bool :=
  match r with
  | Thrown | Blocked => false
  | _ => true
  end.

(** The caller's output array before and after a call. *)
Definition out_array (c : call) : list T :=
  match c with
  | DequeueBulk out _ _ => out
  | FrontBulk out _ => out
  | _ => []
  end.

Definition reply_array (r : reply) : list T :=
  match r with
  | Copied _ out => out
  | _ => []
  end.

(** The misuses listed for the operations: a zero capacity, a batch
    longer than the capacity, an overlap longer than the batch, fewer
    stored elements than asked for. *)
Definition misuse (c : call) (rb : RingBuffer) : bool :=
  match c with
  | Resize _ | Clear => false
  | Enqueue _ | Dequeue | Front => buffer_length rb =? 0
  | EnqueueBulk _ n => (buffer_length rb =? 0) || (n >? buffer_length rb)
  | DequeueBulk _ n ov =>
      (buffer_length rb =? 0) || (n >? buffer_length rb) || (ov >? n)
      || (buffer_size rb <? n)
  | FrontBulk _ n => (buffer_length rb =? 0) || (n >? buffer_size rb)
  end.

(** The arguments are [std::size_t] values, and a [resize] asks for an
    array that can be allocated. *)
Definition is_size_t (x : Z) : Prop := 0 ≤ x < 2 ^ SIZE_WIDTH.

Definition well_typed (c : call) : Prop :=
  match c with
  | Resize n => 0 ≤ n ≤ PTRDIFF_MAX
  | EnqueueBulk _ n => is_size_t n
  | DequeueBulk _ n ov => is_size_t n ∧ is_size_t ov
  | FrontBulk _ n => is_size_t n
  | _ => True
  end.

(** ** Runs of calls, and the queue the buffer stands for

    [run] executes a list of calls in order, as one thread does: the
    calls after one that does not return are never made. [queue_step cap
    c q] is the same call on a plain list [q] of the stored elements,
    oldest first, under capacity [cap]; it is what the theorems on [exec]
    and [contents] compare the buffer with. Its [Resize] case is the
    [resize] of the documentation ("Destroys any data left in the
    buffer"), which the code's [resize] does not complete; the theorems
    compare the two on runs without [resize]. *)


Definition is_resize (c : call) : bool :=
  match c with
  | Resize _ => true
  | _ => false
  end.




End WithElement.

Arguments RingBuffer T : clear implicits.
Arguments call T : clear implicits.
Arguments reply T : clear implicits.

(** ** Two buffers of integers, used to instantiate the theorems *)

(** A buffer of capacity 4 whose single stored element sits in the last
    cell, so that the next writes wrap around. *)
Definition wrapped : RingBuffer Z :=
  {| buffer := [0; 0; 0; 9]; buffer_length := 4;
     buffer_head := 3; buffer_tail := 0; buffer_size := 1;
     warnings := false |}.

(** A full buffer of capacity 3 whose oldest element is in the middle. *)
Definition full3 : RingBuffer Z :=
  {| buffer := [30; 10; 20]; buffer_length := 3;
     buffer_head := 1; buffer_tail := 1; buffer_size := 3;
     warnings := false |}.

End RingBufferModel.

(* ===================================================================== *)
(** * The graph *)
(* ===================================================================== *)

Module GraphModel.

(** ** [double] and its conversions

    A [double] is an IEEE 754 binary64 value, [spec_float] at precision 53
    and maximal exponent 1024; [double_add] is the correctly rounded sum.
    [int_to_double] is the implicit conversion of an [int] operand, exact
    for every [int]. [double_to_int] is the implicit conversion of
    [int weight = ...]: the fractional part is discarded. For a value no
    [int] can hold (also an infinity or a NaN) the conversion is undefined
    in C++; the model gives [INT_MIN] there, the result of the x86-64
    conversion instruction. *)

Definition double : Type := spec_float.

Definition double_add (x y : double) : double := SFadd 53 1024 x y.

Definition int_to_double (z : Z) : double := binary_normalize 53 1024 z 0 false.

Definition INT_MIN : Z := - 2 ^ 31.
Definition INT_MAX : Z := 2 ^ 31 - 1.

Definition double_to_int (x : double) : Z :=
  match x with
  | S754_zero _ => 0
  | S754_finite s m e =>
      let mag := if 0 <=? e then Z.pos m * 2 ^ e else Z.pos m / 2 ^ (- e) in
      let v := if s then - mag else mag in
      if (INT_MIN <=? v) && (v <=? INT_MAX) then v else INT_MIN
  | _ => INT_MIN
  end.

(** The value [m * 2^e] as a [double], for writing literals. *)
Definition double_lit (m e : Z) : double := binary_normalize 53 1024 m e false.

(** ** Outcomes of a computation

    [Done a]: it returns [a]. [Undefined]: it indexes a vector outside its
    range. [OutOfFuel]: the loop budget given to the model ran out before
    the loops ended. *)

Inductive outcome (A : Type) : Type :=
  | Done (a : A)
  | Undefined
  | OutOfFuel.
Arguments Done {A} a.
Arguments Undefined {A}.
Arguments OutOfFuel {A}.

#[export] Instance outcome_ret : MRet outcome := λ A a, Done a.
#[export] Instance outcome_bind : MBind outcome := λ A B f m,
  match m with
  | Done a => f a
  | Undefined => Undefined
  | OutOfFuel => OutOfFuel
  end.

(** [v[i]] as an rvalue, and [v[i] = x], on a [std::vector]. *)
Definition vec_get {A} (v : list A) (i : Z) : outcome A :=
  if i <? 0 then Undefined
  else match v !! Z.to_nat i with
       | Some a => Done a
       | None => Undefined
       end.

Definition vec_set {A} (v : list A) (i : Z) (x : A) : outcome (list A) :=
  if i <? 0 then Undefined
  else match v !! Z.to_nat i with
       | Some _ => Done (<[Z.to_nat i := x]> v)
       | None => Undefined
       end.

(** ** The members of [Graph]

    The header [HriPhysio/Core/graph.h], which declares [Edge], [pii] and
    the data members, is not among the sources; the three declarations
    below are what [graph.cpp] uses of them. *)

(** Modelled from the spec: the [Edge{to, weight}] of the header
    [graph.h], which is missing. [graph.cpp] builds it as
    [Edge(v, weight)] from an [int] and a [double] and reads [edge.to]
    and [edge.weight]. *)
Record Edge : Type := mkEdge { to : Z; weight : double }.

(** Modelled from the spec: the type [pii] of the missing header
    [graph.h], the element of the priority queue, a
    [(distance, nodeId)] pair of [int]s. *)
Definition pii : Type := Z * Z.

(** Modelled from the spec: the data members of [Graph], declared in the
    missing header [graph.h]. They are those [graph.cpp] uses:
    [num_nodes], [num_edges], the adjacency array [nbr], and the
    per-query vectors [dist] and [prev], with [-1] for "unreached" and
    for "none". *)
Record Graph : Type := mkGraph {
  num_nodes : Z;
  num_edges : Z;
  nbr : list (list Edge);
  dist : list Z;
  prev : list Z
}.

(** ** [Graph::Graph(int n)] *)

Definition construct (n : Z) : Graph :=
  {| num_nodes := n; num_edges := 0;
     nbr := replicate (Z.to_nat n) [];
     dist := []; prev := [] |}.

(** ** [void Graph::addEdge(int u, int v, double weight)]

    The result is the graph after the call and, when the call throws, the
    exception. *)

Inductive exception : Type :=
  | out_of_range (what : string).

Definition push_edge (nbr : list (list Edge)) (i : Z) (e : Edge)
  : list (list Edge) :=
  alter (λ edges, edges ++ [e]) (Z.to_nat i) nbr.

Definition addEdge (g : Graph) (u v : Z) (weight : double)
  : Graph * option exception :=
  if (u >=? num_nodes g) || (u <? 0) || (v >=? num_nodes g) || (v <? 0)
  then (g, Some (out_of_range "Node index out of range"))
  else
    let nbr1 := push_edge (nbr g) u (mkEdge v weight) in
    let nbr2 := push_edge nbr1 v (mkEdge u weight) in
    ({| num_nodes := num_nodes g; num_edges := num_edges g + 1;
        nbr := nbr2; dist := dist g; prev := prev g |}, None).

Definition getNumEdges (g : Graph) : Z := num_edges g.

(** A run of [addEdge] calls, the exceptions caught by the caller. *)
Definition addEdges (g : Graph) (calls : list (Z * Z * double))
  : Graph * list (option exception) :=
  foldl (λ '(g, log) '(u, v, w),
           let '(g', r) := addEdge g u v w in (g', log ++ [r]))
        (g, []) calls.

(** ** The priority queue

    [std::priority_queue<pii, std::vector<pii>, std::greater<pii>>]: [top]
    is a least pair in the lexicographic order of [std::pair]. The queue
    is kept as an ascending list; since the order is total, which least
    pair is on top does not depend on the heap's layout. *)

Definition pii_lt (a b : pii) : bool :=
  (a.1 <? b.1) || ((a.1 =? b.1) && (a.2 <? b.2)).

Fixpoint pq_emplace (x : pii) (q : list pii) : list pii :=
  match q with
  | [] => [x]
  | y :: q' => if pii_lt x y then x :: y :: q' else y :: pq_emplace x q'
  end.

(** ** [void Graph::dijkstra(int source)]

    A [Frame] is the graph (with its [dist] and [prev]) and the two locals
    [used] and [fringe]. *)

Record Frame : Type := mkFrame {
  self : Graph;
  used : list bool;
  fringe : list pii
}.

Definition set_dist_prev (g : Graph) (dist' prev' : list Z) : Graph :=
  {| num_nodes := num_nodes g; num_edges := num_edges g; nbr := nbr g;
     dist := dist'; prev := prev' |}.

(** The body of [for (const auto& edge : nbr[from])], over the edges that
    remain. *)
Fixpoint relax (edges : list Edge) (currentDist from : Z) (fr : Frame)
  : outcome Frame :=
  match edges with
  | [] => Done fr
  | edge :: rest =>
      let to_ := to edge in
      let weight_ :=
        double_to_int (double_add (weight edge) (int_to_double currentDist)) in
      u ← vec_get (used fr) to_;
      if u : bool then relax rest currentDist from fr
      else
        d ← vec_get (dist (self fr)) to_;
        if (d =? -1) || (weight_ <? d) then
          dist' ← vec_set (dist (self fr)) to_ weight_;
          prev' ← vec_set (prev (self fr)) to_ from;
          d' ← vec_get dist' to_;
          relax rest currentDist from
            {| self := set_dist_prev (self fr) dist' prev';
               used := used fr;
               fringe := pq_emplace (d', to_) (fringe fr) |}
        else relax rest currentDist from fr
  end.

(** [while (!fringe.empty())], with a budget of [fuel] iterations. *)
Fixpoint dijkstra_loop (fuel : nat) (fr : Frame) : outcome Frame :=
  match fringe fr with
  | [] => Done fr
  | (currentDist, from) :: popped =>
      match fuel with
      | O => OutOfFuel
      | S fuel' =>
          u ← vec_get (used fr) from;
          if u : bool then
            dijkstra_loop fuel'
              {| self := self fr; used := used fr; fringe := popped |}
          else
            used' ← vec_set (used fr) from true;
            edges ← vec_get (nbr (self fr)) from;
            fr' ← relax edges currentDist from
                   {| self := self fr; used := used'; fringe := popped |};
            dijkstra_loop fuel' fr'
      end
  end.

Definition dijkstra (fuel : nat) (g : Graph) (source : Z) : outcome Graph :=
  let used := replicate (Z.to_nat (num_nodes g)) false in
  let dist0 := replicate (Z.to_nat (num_nodes g)) (-1) in
  let prev0 := replicate (Z.to_nat (num_nodes g)) (-1) in
  dist1 ← vec_set dist0 source 0;
  d ← vec_get dist1 source;
  fr ← dijkstra_loop fuel
         {| self := set_dist_prev g dist1 prev0;
            used := used;
            fringe := pq_emplace (d, source) [] |};
  Done (self fr).

(** ** [void Graph::shortestPath(int source, int target, std::string&)] *)

Definition to_string (n : Z) : string := pretty n.

(** [for (int from = target; from != -1; from = prev[from])], with a
    budget of [fuel] iterations. *)
Fixpoint recover_path (fuel : nat) (prev : list Z) (from : Z) (path : list Z)
  : outcome (list Z) :=
  if from =? -1 then Done path
  else
    match fuel with
    | O => OutOfFuel
    | S fuel' =>
        next ← vec_get prev from;
        recover_path fuel' prev next (path ++ [from])
    end.

(** [for (size_t idx = 0; idx < path.size(); ++idx)], over the elements
    that remain. *)
Fixpoint build_message (idx : Z) (path : list Z) (message : string) : string :=
  match path with
  | [] => message
  | node :: rest =>
      let message1 := if negb (idx =? 0) then message +:+ "-" else message in
      build_message (idx + 1) rest (message1 +:+ to_string node)
  end.

(** The result is the graph after the call (its [dist] and [prev] are
    rewritten by [dijkstra]) and the value left in [message]. *)
Definition shortestPath (fuel : nat) (g : Graph) (source target : Z)
  : outcome (Graph * string) :=
  if source =? target then
    Done (g, to_string source +:+ "-" +:+ to_string target)
  else
    g' ← dijkstra fuel g source;
    path ← recover_path fuel (prev g') target [];
    let path := reverse path in
    if Z.of_nat (length path) =? 1 then Done (g', "")
    else Done (g', build_message 0 path "").

(** ** Well-formed graphs and reachability *)

(** What the constructor and [addEdge] maintain: one adjacency list per
    node, every stored edge ends at a node. *)
Definition well_formed (g : Graph) : Prop :=
  Z.of_nat (length (nbr g)) = num_nodes g
  ∧ ∀ edges e, edges ∈ nbr g → e ∈ edges → 0 ≤ to e < num_nodes g.

Definition adjacent (g : Graph) (u v : Z) : Prop :=
  ∃ edges e, vec_get (nbr g) u = Done edges ∧ e ∈ edges ∧ to e = v.

Definition reachable (g : Graph) (a b : Z) : Prop := rtc (adjacent g) a b.

(** ** Notions used in the proofs about [dijkstra] *)

(** The calls of a run of [addEdge] that returned normally. *)
Definition successes (log : list (option exception)) : Z :=
  Z.of_nat (length (filter (λ r, r = None) log)).

(** The number of adjacency entries of the graph: twice its edges. *)
Definition total_degree (g : Graph) : nat := sum_list (length <$> nbr g).

(** The adjacency entries of the nodes not yet finalized. *)
Definition pending (nbr : list (list Edge)) (used : list bool) : nat :=
  sum_list (zip_with (λ edges (u : bool), if u then O else length edges)
                     nbr used).

(** The iterations the main loop can still make. *)
Definition budget (fr : Frame) : nat :=
  (length (fringe fr) + pending (nbr (self fr)) (used fr))%nat.

(** What holds of the frame at every test of the loop condition, in a
    search from [source] over the graph [g]. *)
Definition frame_ok (g : Graph) (source : Z) (fr : Frame) : Prop :=
  nbr (self fr) = nbr g
  ∧ num_nodes (self fr) = num_nodes g
  ∧ length (used fr) = length (nbr g)
  ∧ length (dist (self fr)) = length (nbr g)
  ∧ length (prev (self fr)) = length (nbr g)
  ∧ (∀ p : pii, p ∈ fringe fr →
       0 ≤ p.2 < num_nodes g ∧ reachable g source p.2)
  ∧ (∀ (i : nat) (p : Z), prev (self fr) !! i = Some p → p ≠ -1 →
       reachable g source (Z.of_nat i)).

(** ** Sample graphs *)

(** The edges [(0,1,1.0)], [(1,2,1.0)], [(0,2,5.0)]. *)
Definition three_edges : list (Z * Z * double) :=
  [(0, 1, double_lit 1 0); (1, 2, double_lit 1 0); (0, 2, double_lit 5 0)].

(** Two nodes joined by an edge of weight [0.5]. *)
Definition half_edge : Graph :=
  (addEdges (construct 2) [(0, 1, double_lit 1 (-1))]).1.

(** A triangle whose direct edge [0 - 2] weighs [1.0] and whose detour
    over node 1 weighs [0.75 + 0.75]. *)
Definition detour : Graph :=
  (addEdges (construct 3)
     [(0, 1, double_lit 3 (-2)); (1, 2, double_lit 3 (-2));
      (0, 2, double_lit 1 0)]).1.

(** Nodes [0 - 1] joined, node [2] on its own. *)
Definition island : Graph :=
  (addEdges (construct 3) [(0, 1, double_lit 1 0)]).1.

(** ** Notions used in the properties of built graphs and found paths *)

(** [adjacency[u]] holds the entry [(v, w)]. *)
Definition has_edge (g : Graph) (u v : Z) (w : double) : Prop :=
  ∃ edges, vec_get (nbr g) u = Done edges ∧ mkEdge v w ∈ edges.

Definition symmetric (g : Graph) : Prop :=
  ∀ u v w, has_edge g u v w → has_edge g v u w.

(** Each node of [path] is joined to the next by an edge. *)
Fixpoint is_path (g : Graph) (path : list Z) : Prop :=
  match path with
  | [] => True
  | u :: rest =>
      match rest with
      | [] => True
      | v :: _ => adjacent g u v
      end ∧ is_path g rest
  end.

(** The message of a query, apart from the graph it returns. *)
Definition message_of (r : outcome (Graph * string)) : outcome string :=
  match r with
  | Done (_, message) => Done message
  | Undefined => Undefined
  | OutOfFuel => OutOfFuel
  end.

(** [order] lists the finalized nodes, the latest first. [chained] says
    that each of them is the source, with no predecessor, or has as its
    predecessor a node finalized earlier that it is adjacent to. *)
Fixpoint chained (g : Graph) (source : Z) (prev : list Z) (order : list Z)
  : Prop :=
  match order with
  | [] => True
  | v :: older =>
      0 ≤ v
      ∧ ((v = source ∧ prev !! Z.to_nat v = Some (-1))
         ∨ (∃ p, prev !! Z.to_nat v = Some p ∧ p ≠ -1
                 ∧ p ∈ older ∧ adjacent g p v))
      ∧ chained g source prev older
  end.

(** The node is finalized or waits in the queue. *)
Definition covered (fr : Frame) (v : Z) : Prop :=
  0 ≤ v ∧ (used fr !! Z.to_nat v = Some true ∨ ∃ d, (d, v) ∈ fringe fr).

(** What the relaxation loop keeps, for a fixed list of finalized nodes. *)
Definition search_inv (g : Graph) (source : Z) (order : list Z) (fr : Frame)
  : Prop :=
  nbr (self fr) = nbr g
  ∧ (∀ v, v ∈ order → 0 ≤ v ∧ used fr !! Z.to_nat v = Some true)
  ∧ (∀ i : nat, used fr !! i = Some true → Z.of_nat i ∈ order)
  ∧ chained g source (prev (self fr)) order
  ∧ prev (self fr) !! Z.to_nat source = Some (-1)
  ∧ (∀ (i : nat) (p : Z),
       used fr !! i = Some false → prev (self fr) !! i = Some p → p ≠ -1 →
       p ∈ order ∧ adjacent g p (Z.of_nat i))
  ∧ (∀ p : pii, p ∈ fringe fr →
       p.2 = source ∨ ∃ q, prev (self fr) !! Z.to_nat p.2 = Some q ∧ q ≠ -1)
  ∧ (∀ (i : nat) (d : Z), dist (self fr) !! i = Some d → d ≠ -1 →
       covered fr (Z.of_nat i)).

(** What holds at every test of the condition of the main loop. *)
Definition loop_inv (g : Graph) (source : Z) (order : list Z) (fr : Frame)
  : Prop :=
  search_inv g source order fr
  ∧ 0 ≤ source
  ∧ (source ∈ order ∨ (order = [] ∧ ∀ p : pii, p ∈ fringe fr → p.2 = source))
  ∧ covered fr source
  ∧ (∀ u v, u ∈ order → adjacent g u v → covered fr v).

End GraphModel.

(* ===================================================================== *)
(** * Properties of the ring buffer *)
(* ===================================================================== *)

Module RingBufferTheory.
Import RingBufferModel.

(** ** Arithmetic of [size_t] and of indices modulo the capacity *)

Lemma size_t_small (x : Z) : 0 ≤ x < 2 ^ SIZE_WIDTH → size_t x = x.
Proof. intros Hx. unfold size_t. by apply Z.mod_small. Qed.

Lemma size_t_add_l (x y : Z) : size_t (size_t x + y) = size_t (x + y).
Proof. unfold size_t. apply Zplus_mod_idemp_l. Qed.

Lemma ptrdiff_lt_size : PTRDIFF_MAX + PTRDIFF_MAX < 2 ^ SIZE_WIDTH.
Proof. reflexivity. Qed.

Lemma mod_add_l (cap a b : Z) : (a mod cap + b) mod cap = (a + b) mod cap.
Proof. apply Zplus_mod_idemp_l. Qed.

Lemma mod_in_range (cap a : Z) : 0 < cap → 0 ≤ a mod cap < cap.
Proof. intros. by apply Z.mod_pos_bound. Qed.

(** Two indices less than a capacity apart are different modulo it. *)
Lemma mod_apart (cap h d : Z) :
  0 < d < cap → (h + d) mod cap ≠ h mod cap.
Proof.
  intros Hd Heq.
  assert (Hz : ((h + d) - h) mod cap = 0).
  { rewrite Zminus_mod, Heq, Z.sub_diag. by apply Z.mod_0_l; lia. }
  replace (h + d - h) with d in Hz by lia.
  rewrite Z.mod_small in Hz; lia.
Qed.

(** Deciding the comparisons the operations branch on. *)
Ltac zbool :=
  repeat match goal with
  | |- context [?a >? ?b] => rewrite (Z.gtb_ltb a b)
  | |- context [?a >=? ?b] => rewrite (Z.geb_leb a b)
  | H : context [?a >? ?b] |- _ => rewrite (Z.gtb_ltb a b) in H
  | H : context [?a >=? ?b] |- _ => rewrite (Z.geb_leb a b) in H
  end;
  repeat match goal with
  | |- context [?a =? ?b] => destruct (Z.eqb_spec a b)
  | |- context [?a <? ?b] => destruct (Z.ltb_spec a b)
  | |- context [?a <=? ?b] => destruct (Z.leb_spec a b)
  | H : context [?a =? ?b] |- _ => destruct (Z.eqb_spec a b)
  | H : context [?a <? ?b] |- _ => destruct (Z.ltb_spec a b)
  | H : context [?a <=? ?b] |- _ => destruct (Z.leb_spec a b)
  end;
  simpl in *.

Section WithElement.
Context {T : Type} `{!Inhabited T}.
Implicit Types (rb : RingBuffer T) (b items : list T) (c : call T).

(** ** The array primitives *)

Lemma length_buf_set b i x :
  Datatypes.length (buf_set b i x) = Datatypes.length b.
Proof. apply length_insert. Qed.

Lemma buf_at_set_eq b i x :
  0 ≤ i < Z.of_nat (Datatypes.length b) → buf_at (buf_set b i x) i = x.
Proof.
  intros Hi. unfold buf_at, buf_set.
  rewrite list_lookup_insert_eq by lia. done.
Qed.

Lemma buf_at_set_ne b i j x :
  0 ≤ i → 0 ≤ j → i ≠ j → buf_at (buf_set b i x) j = buf_at b j.
Proof.
  intros Hi Hj Hne. unfold buf_at, buf_set.
  rewrite list_lookup_insert_ne by lia. done.
Qed.

Lemma length_fill b n v :
  Datatypes.length (fill b n v) = Datatypes.length b.
Proof.
  unfold fill. rewrite length_app, length_replicate, length_drop. lia.
Qed.

(** ** One operation at a time: the counters afterwards *)

Lemma clear_ok rb :
  Z.of_nat (Datatypes.length (buffer rb)) = buffer_length rb →
  buffer_length rb ≤ PTRDIFF_MAX →
  allocated (clear rb) ∧ invariant (clear rb).
Proof.
  intros Hlen Hmax. unfold allocated, invariant, clear; simpl.
  rewrite length_fill.
  assert (0 ≤ buffer_length rb) by lia.
  repeat split; lia.
Qed.

Lemma size_t_range (x : Z) : 0 ≤ size_t x < 2 ^ SIZE_WIDTH.
Proof. unfold size_t. by apply Z.mod_pos_bound. Qed.

Lemma enqueue_loop_fields (n : nat) idx items rb :
  0 < buffer_length rb ≤ PTRDIFF_MAX →
  0 ≤ buffer_tail rb < buffer_length rb →
  0 ≤ buffer_size rb < 2 ^ SIZE_WIDTH →
  let rb' := enqueue_loop n idx items rb in
  buffer_length rb' = buffer_length rb
  ∧ buffer_head rb' = buffer_head rb
  ∧ buffer_tail rb' = (buffer_tail rb + Z.of_nat n) mod buffer_length rb
  ∧ buffer_size rb' = size_t (buffer_size rb + Z.of_nat n)
  ∧ Datatypes.length (buffer rb') = Datatypes.length (buffer rb).
Proof.
  revert idx rb. induction n as [|n IH]; intros idx rb Hcap Htail Hsz; simpl.
  - rewrite !Z.add_0_r, Z.mod_small, size_t_small by lia. done.
  - pose proof ptrdiff_lt_size as Hp.
    assert (Hw : size_t (buffer_tail rb + 1) = buffer_tail rb + 1)
      by (apply size_t_small; lia).
    specialize (IH (idx + 1) (push_back rb (buf_at items idx))).
    simpl in IH. rewrite Hw in IH.
    destruct IH as (H1 & H2 & H3 & H4 & H5);
      [lia | by apply mod_in_range; lia | apply size_t_range |].
    rewrite H1, H2, H3, H4, H5, length_buf_set.
    repeat split.
    + rewrite mod_add_l. f_equal; lia.
    + rewrite size_t_add_l. f_equal; lia.
Qed.

(** The copy loop of the bulk [dequeue], run for [n] iterations from index
    [idx], retires [max 0 (min n (keep - idx))] elements. *)
Lemma dequeue_loop_fields (n : nat) idx keep pos items rb (r : Z) :
  r = Z.max 0 (Z.min (Z.of_nat n) (keep - idx)) →
  0 < buffer_length rb ≤ PTRDIFF_MAX →
  0 ≤ buffer_head rb < buffer_length rb →
  r ≤ buffer_size rb ≤ buffer_length rb →
  let rb' := (dequeue_loop n idx keep pos items rb).2 in
  buffer rb' = buffer rb
  ∧ buffer_length rb' = buffer_length rb
  ∧ buffer_head rb' = (buffer_head rb + r) mod buffer_length rb
  ∧ buffer_tail rb' = buffer_tail rb
  ∧ buffer_size rb' = buffer_size rb - r.
Proof.
  revert idx pos items rb r.
  induction n as [|n IH]; intros idx pos items rb r Hr Hcap Hhead Hsize.
  - assert (r = 0) as -> by lia. simpl.
    rewrite Z.add_0_r, Z.mod_small by lia. repeat split; lia.
  - pose proof ptrdiff_lt_size as Hp. cbn [dequeue_loop].
    destruct (Z.ltb_spec idx keep) as [Hlt|Hge].
    + assert (Hw : size_t (buffer_head rb + 1) = buffer_head rb + 1)
        by (apply size_t_small; lia).
      assert (Hs : size_t (buffer_size rb - 1) = buffer_size rb - 1)
        by (apply size_t_small; lia).
      match goal with |- context [dequeue_loop n ?i keep ?p ?it ?rb1] =>
        specialize (IH i p it rb1 (r - 1)) end.
      simpl in IH. rewrite Hw, Hs in IH.
      destruct IH as (H1 & H2 & H3 & H4 & H5);
        [lia | lia | by apply mod_in_range; lia | lia |].
      cbv zeta. rewrite H1, H2, H3, H4, H5. repeat split; try lia.
      rewrite mod_add_l. f_equal; lia.
    + assert (r = 0) as -> by lia.
      match goal with |- context [dequeue_loop n ?i keep ?p ?it ?rb1] =>
        specialize (IH i p it rb1 0) end.
      destruct IH as (H1 & H2 & H3 & H4 & H5); [lia | lia | lia | lia |].
      cbv zeta. rewrite H1, H2, H3, H4, H5. repeat split; lia.
Qed.

(** ** [resize] stops at its call of [clear] *)

Lemma resize_blocks rb n :
  n ≤ PTRDIFF_MAX →
  resize rb n
  = Blocks {| buffer := replicate (Z.to_nat n) inhabitant;
              buffer_length := n;
              buffer_head := buffer_head rb; buffer_tail := buffer_tail rb;
              buffer_size := buffer_size rb; warnings := warnings rb |}.
Proof.
  intros Hn. unfold resize, make_unique. simpl.
  by destruct (Z.gtb_spec n PTRDIFF_MAX); [lia|].
Qed.

Lemma resize_throws rb n :
  PTRDIFF_MAX < n →
  resize rb n
  = Throws {| buffer := buffer rb; buffer_length := n;
              buffer_head := buffer_head rb; buffer_tail := buffer_tail rb;
              buffer_size := buffer_size rb; warnings := warnings rb |}.
Proof.
  intros Hn. unfold resize, make_unique. simpl.
  by destruct (Z.gtb_spec n PTRDIFF_MAX); [|lia].
Qed.

Lemma resize_never_returns rb n rb' : resize rb n ≠ Returns rb'.
Proof.
  destruct (Z.le_gt_cases n PTRDIFF_MAX) as [Hn|Hn].
  - by rewrite resize_blocks.
  - by rewrite resize_throws by lia.
Qed.

(** ** Each operation that returns keeps the buffer well-formed *)

Lemma clear_preserves rb :
  allocated rb → allocated (clear rb) ∧ invariant (clear rb).
Proof. intros [Hlen Hmax]. by apply clear_ok. Qed.

Lemma enqueue_preserves rb item :
  allocated rb → invariant rb →
  allocated (enqueue rb item).2 ∧ invariant (enqueue rb item).2.
Proof.
  intros Hal Hinv. pose proof Hal as [Hlen Hmax].
  pose proof Hinv as (Hsize & Hidx & Htail). pose proof ptrdiff_lt_size as Hp.
  unfold enqueue, full.
  destruct (Z.eqb_spec (buffer_length rb) 0) as [Hz|Hnz]; [by split|].
  destruct (Z.geb_spec (buffer_size rb) (buffer_length rb)) as [Hfl|Hnf].
  - (* full: the oldest element is retired first *)
    destruct Hidx as [Hh Ht]; [lia|].
    assert (Hfull : buffer_size rb = buffer_length rb) by lia.
    unfold allocated, invariant; simpl.
    rewrite length_buf_set.
    rewrite (size_t_small (buffer_head rb + 1)) by lia.
    rewrite (size_t_small (buffer_tail rb + 1)) by lia.
    rewrite (size_t_small (buffer_size rb - 1)) by lia.
    rewrite (size_t_small (buffer_size rb - 1 + 1)) by lia.
    repeat split; try lia; try (apply mod_in_range; lia).
    rewrite Htail, !mod_add_l. f_equal; lia.
  - destruct Hidx as [Hh Ht]; [lia|].
    unfold allocated, invariant; simpl.
    rewrite length_buf_set.
    rewrite (size_t_small (buffer_tail rb + 1)) by lia.
    rewrite (size_t_small (buffer_size rb + 1)) by lia.
    repeat split; try lia; try (apply mod_in_range; lia).
    rewrite Htail, !mod_add_l. f_equal; lia.
Qed.

Lemma enqueue_bulk_preserves rb items n :
  is_size_t n → allocated rb → invariant rb →
  allocated (enqueue_bulk rb items n).2
  ∧ invariant (enqueue_bulk rb items n).2.
Proof.
  intros Hn Hal Hinv. pose proof Hal as [Hlen Hmax].
  pose proof Hinv as (Hsize & Hidx & Htail). pose proof ptrdiff_lt_size as Hp.
  unfold is_size_t in Hn.
  unfold enqueue_bulk.
  destruct (Z.gtb_spec n (buffer_length rb)) as [Hgt|Hle]; [by split|].
  destruct (Z.eqb_spec (buffer_length rb) 0) as [Hz|Hnz]; [by split|].
  destruct Hidx as [Hh Ht]; [lia|]. simpl.
  rewrite (size_t_small (buffer_size rb + n)) by lia.
  destruct (Z.geb_spec (buffer_size rb + n) (buffer_length rb)) as [Hev|Hfit].
  - (* [n] elements are retired, then [n] are written *)
    pose proof (enqueue_loop_fields (Z.to_nat n) 0 items (retire rb n)) as Hl.
    simpl in Hl. destruct Hl as (H1 & H2 & H3 & H4 & H5);
      [lia | lia | apply size_t_range |].
    rewrite (size_t_small (buffer_head rb + n)) in H2 by lia.
    rewrite Z2Nat.id in H3, H4 by lia.
    rewrite size_t_add_l in H4.
    replace (buffer_size rb - n + n) with (buffer_size rb) in H4 by lia.
    rewrite size_t_small in H4 by lia.
    unfold allocated, invariant.
    rewrite H1, H2, H3, H4, H5.
    repeat split; try lia; try (apply mod_in_range; lia).
    rewrite Htail, !mod_add_l. f_equal; lia.
  - pose proof (enqueue_loop_fields (Z.to_nat n) 0 items rb) as Hl.
    simpl in Hl. destruct Hl as (H1 & H2 & H3 & H4 & H5); [lia | lia | lia |].
    rewrite Z2Nat.id in H3, H4 by lia.
    rewrite size_t_small in H4 by lia.
    unfold allocated, invariant.
    rewrite H1, H2, H3, H4, H5.
    repeat split; try lia; try (apply mod_in_range; lia).
    rewrite Htail, !mod_add_l. f_equal; lia.
Qed.

Lemma dequeue_preserves rb :
  allocated rb → invariant rb →
  allocated (dequeue rb).2 ∧ invariant (dequeue rb).2.
Proof.
  intros Hal Hinv. pose proof Hal as [Hlen Hmax].
  pose proof Hinv as (Hsize & Hidx & Htail). pose proof ptrdiff_lt_size as Hp.
  unfold dequeue, empty.
  destruct (Z.eqb_spec (buffer_length rb) 0) as [Hz|Hnz]; [by split|].
  destruct (Z.eqb_spec (buffer_size rb) 0) as [Hez|Hne]; [by split|].
  destruct Hidx as [Hh Ht]; [lia|].
  unfold allocated, invariant; simpl.
  rewrite (size_t_small (buffer_head rb + 1)) by lia.
  rewrite (size_t_small (buffer_size rb - 1)) by lia.
  repeat split; try lia; try (apply mod_in_range; lia).
  rewrite Htail, !mod_add_l. f_equal; lia.
Qed.

Lemma dequeue_bulk_preserves rb items n ov :
  is_size_t n → is_size_t ov → allocated rb → invariant rb →
  allocated (dequeue_bulk rb items n ov).2
  ∧ invariant (dequeue_bulk rb items n ov).2.
Proof.
  intros Hn Hov Hal Hinv. pose proof Hal as [Hlen Hmax].
  pose proof Hinv as (Hsize & Hidx & Htail).
  pose proof ptrdiff_lt_size as Hp. unfold is_size_t in *.
  unfold dequeue_bulk.
  destruct (Z.gtb_spec n (buffer_length rb)) as [Hgt|Hle]; [by split|].
  destruct (Z.eqb_spec (buffer_length rb) 0) as [Hz|Hnz]; [by split|].
  destruct (Z.gtb_spec ov n) as [Hgt|Hovn]; [by split|].
  destruct (Z.gtb_spec n (buffer_size rb)) as [Hgt|Hns]; [by split|].
  simpl. destruct Hidx as [Hh Ht]; [lia|].
  rewrite (size_t_small (n - ov)) by lia.
  pose proof (dequeue_loop_fields (Z.to_nat n) 0 (n - ov) (buffer_head rb)
                items rb (n - ov)) as Hl.
  destruct (dequeue_loop _ _ _ _ _ _) as [items' rb']. simpl in *.
  destruct Hl as (H1 & H2 & H3 & H4 & H5); [lia | lia | lia | lia |].
  unfold allocated, invariant.
  rewrite H1, H2, H3, H4, H5.
  repeat split; try lia; try (apply mod_in_range; lia).
  rewrite Htail, !mod_add_l. f_equal; lia.
Qed.

(** The counter of the bulk [enqueue] at work: a batch as long as the
    capacity, written to an empty buffer, first takes [buffer_size] from
    [0] to [2^64 - 4] and then counts it back up to [0]. *)
Example enqueue_bulk_whole_capacity :
  enqueue_bulk (construct 4) [1; 2; 3; 4] 4
  = (true, {| buffer := [1; 2; 3; 4]; buffer_length := 4;
              buffer_head := 0; buffer_tail := 0; buffer_size := 0;
              warnings := false |})
  ∧ buffer_size (retire (construct (T:=Z) 4) 4) = 2 ^ 64 - 4.
Proof. split; reflexivity. Qed.

Lemma exec_returns c rb : is_resize c = false → returned (exec c rb).1 = true.
Proof.
  intros Hc. destruct c as [n| |x|xs n| |out n ov| |out n];
    try discriminate Hc; simpl.
  - done.
  - by destruct (enqueue rb x).
  - by destruct (enqueue_bulk rb xs n).
  - by destruct (dequeue rb).
  - by destruct (dequeue_bulk rb out n ov) as [[? ?] ?].
  - done.
  - by destruct (front_bulk rb out n).
Qed.

Lemma exec_preserves c rb :
  is_resize c = false → well_typed c → allocated rb → invariant rb →
  allocated (exec c rb).2 ∧ invariant (exec c rb).2.
Proof.
  intros Hc Hty Hal Hinv. destruct c as [n| |x|xs n| |out n ov| |out n];
    try discriminate Hc; simpl in *.
  - by apply clear_preserves.
  - pose proof (enqueue_preserves rb x Hal Hinv) as Hp.
    by destruct (enqueue rb x).
  - pose proof (enqueue_bulk_preserves rb xs n Hty Hal Hinv) as Hp.
    by destruct (enqueue_bulk rb xs n).
  - pose proof (dequeue_preserves rb Hal Hinv) as Hp.
    by destruct (dequeue rb).
  - destruct Hty as [Hn Hov].
    pose proof (dequeue_bulk_preserves rb out n ov Hn Hov Hal Hinv) as Hp.
    by destruct (dequeue_bulk rb out n ov) as [[? ?] ?].
  - done.
  - by destruct (front_bulk rb out n).
Qed.

(** C3. Of the operations of the ring buffer, [clear], single and bulk
    [enqueue], single and bulk [dequeue] and single and bulk [front]
    return, and take an allocated buffer that satisfies the state
    invariants ([0 <= count <= capacity]; [head] and [tail] in
    [[0, capacity)] when [capacity > 0]; [tail = (head + count) mod
    capacity]) to an allocated buffer that satisfies them again.
    [resize] does not: no call of it returns, since it calls [clear]
    while it holds the lock, and a [resize(n)] of a buffer that stores
    more than [n] elements stops with the capacity [n] and the old
    count, a state in which [count <= capacity] fails. *)
Theorem invariants_kept_except_by_resize :
  (∀ c rb,
     is_resize c = false → well_typed c → allocated rb → invariant rb →
     returned (exec c rb).1 = true
     ∧ allocated (exec c rb).2 ∧ invariant (exec c rb).2)
  ∧ (∀ rb n rb', resize rb n ≠ Returns rb')
  ∧ (∀ rb n,
       well_typed (T:=T) (Resize n) → n < buffer_size rb →
       ∃ st, resize rb n = Blocks st
         ∧ exec (Resize n) rb = (Blocked, st)
         ∧ buffer_length st = n ∧ buffer_size st = buffer_size rb
         ∧ ¬ invariant st).
Proof.
  split_and!.
  - intros c rb Hc Hty Hal Hinv. split; [by apply exec_returns|].
    by apply exec_preserves.
  - apply resize_never_returns.
  - intros rb n [Hn0 Hn] Hlt. eexists. split; [by apply resize_blocks|].
    simpl. rewrite resize_blocks by done. split_and!; try done.
    intros ([_ Hsz] & _). simpl in Hsz. lia.
Qed.

(** ** Reading the stored elements *)

Lemma length_read_from b cap pos (n : nat) :
  Datatypes.length (read_from b cap pos n) = n.
Proof. revert pos. induction n; intros; simpl; [done | by rewrite IHn]. Qed.

Lemma read_from_snoc b cap pos (n : nat) :
  0 ≤ pos < cap →
  read_from b cap pos (S n)
  = read_from b cap pos n ++ [buf_at b ((pos + Z.of_nat n) mod cap)].
Proof.
  revert pos. induction n as [|n IH]; intros pos Hpos.
  - simpl. rewrite Z.add_0_r, Z.mod_small by lia. done.
  - change (read_from b cap pos (S (S n)))
      with (buf_at b pos :: read_from b cap ((pos + 1) mod cap) (S n)).
    rewrite IH by (apply mod_in_range; lia).
    rewrite mod_add_l.
    replace (pos + 1 + Z.of_nat n) with (pos + Z.of_nat (S n)) by lia.
    done.
Qed.

Lemma read_from_take b cap pos (n m : nat) :
  (n ≤ m)%nat → take n (read_from b cap pos m) = read_from b cap pos n.
Proof.
  revert pos m. induction n as [|n IH]; intros pos m Hle; [done|].
  destruct m as [|m]; [lia|]. simpl. f_equal. apply IH. lia.
Qed.

Lemma read_from_drop b cap pos (k n : nat) :
  0 ≤ pos < cap →
  drop k (read_from b cap pos (k + n))
  = read_from b cap ((pos + Z.of_nat k) mod cap) n.
Proof.
  revert pos. induction k as [|k IH]; intros pos Hpos.
  - simpl. rewrite Z.add_0_r, Z.mod_small by lia. done.
  - cbn [Nat.add read_from drop]. rewrite IH by (apply mod_in_range; lia).
    rewrite mod_add_l.
    replace (pos + 1 + Z.of_nat k) with (pos + Z.of_nat (S k)) by lia.
    done.
Qed.

(** A write [n] places past [pos] is not seen by a read of [n] elements
    from [pos], as long as [n] is less than the capacity. *)
Lemma read_from_set_beyond b cap pos (n : nat) x :
  0 ≤ pos < cap → Z.of_nat n < cap →
  read_from (buf_set b ((pos + Z.of_nat n) mod cap) x) cap pos n
  = read_from b cap pos n.
Proof.
  revert pos. induction n as [|n IH]; intros pos Hpos Hn; [done|].
  cbn [read_from]. f_equal.
  - apply buf_at_set_ne; [apply mod_in_range; lia | lia |].
    rewrite <- (Z.mod_small pos cap) at 2 by lia.
    apply mod_apart. lia.
  - rewrite <- (IH ((pos + 1) mod cap)) by (try apply mod_in_range; lia).
    rewrite mod_add_l.
    replace (pos + 1 + Z.of_nat n) with (pos + Z.of_nat (S n)) by lia.
    done.
Qed.

(** ** What a single [enqueue] and a single [dequeue] do to the contents *)


Lemma enqueue_with_room rb item :
  allocated rb → invariant rb → buffer_size rb < buffer_length rb →
  (enqueue rb item).1 = true
  ∧ contents (enqueue rb item).2 = contents rb ++ [item]
  ∧ buffer_size (enqueue rb item).2 = buffer_size rb + 1.
Proof.
  intros [Hlen Hmax] (Hsize & Hidx & Htail) Hroom.
  pose proof ptrdiff_lt_size as Hp.
  destruct Hidx as [Hh Ht]; [lia|].
  unfold enqueue, full.
  destruct (Z.eqb_spec (buffer_length rb) 0) as [Hz|Hnz]; [lia|].
  destruct (Z.geb_spec (buffer_size rb) (buffer_length rb)) as [Hfl|_]; [lia|].
  unfold contents; simpl.
  rewrite (size_t_small (buffer_size rb + 1)) by lia.
  split; [done|]. split; [|done].
  replace (Z.to_nat (buffer_size rb + 1)) with (S (Z.to_nat (buffer_size rb)))
    by lia.
  rewrite read_from_snoc by lia.
  rewrite Z2Nat.id, <- Htail by lia.
  rewrite buf_at_set_eq by lia.
  f_equal. rewrite Htail at 1.
  rewrite <- (Z2Nat.id (buffer_size rb)) at 1 by lia.
  apply read_from_set_beyond; lia.
Qed.

Lemma enqueue_when_full rb item :
  allocated rb → invariant rb →
  0 < buffer_length rb → buffer_size rb = buffer_length rb →
  (enqueue rb item).1 = true
  ∧ contents (enqueue rb item).2 = drop 1 (contents rb) ++ [item]
  ∧ buffer_size (enqueue rb item).2 = buffer_length rb.
Proof.
  intros [Hlen Hmax] (Hsize & Hidx & Htail) Hcap Hfull.
  pose proof ptrdiff_lt_size as Hp.
  destruct Hidx as [Hh Ht]; [lia|].
  assert (Hth : buffer_tail rb = buffer_head rb).
  { rewrite Htail, Hfull.
    rewrite <- (Z.mul_1_l (buffer_length rb)) at 1.
    rewrite Z.mod_add by lia. apply Z.mod_small; lia. }
  unfold enqueue, full.
  destruct (Z.eqb_spec (buffer_length rb) 0) as [Hz|Hnz]; [lia|].
  destruct (Z.geb_spec (buffer_size rb) (buffer_length rb)) as [_|Hnf]; [|lia].
  unfold contents; simpl.
  rewrite (size_t_small (buffer_head rb + 1)) by lia.
  rewrite (size_t_small (buffer_size rb - 1)) by lia.
  rewrite (size_t_small (buffer_size rb - 1 + 1)) by lia.
  split; [done|]. split; [|lia].
  set (h1 := (buffer_head rb + 1) mod buffer_length rb).
  assert (Hh1 : 0 ≤ h1 < buffer_length rb) by (apply mod_in_range; lia).
  replace (Z.to_nat (buffer_size rb - 1 + 1))
    with (S (Z.to_nat (buffer_size rb - 1))) by lia.
  replace (Z.to_nat (buffer_size rb))
    with (S (Z.to_nat (buffer_size rb - 1))) by lia.
  assert (Hwr : buffer_tail rb
                = (h1 + Z.of_nat (Z.to_nat (buffer_size rb - 1)))
                    mod buffer_length rb).
  { unfold h1. rewrite mod_add_l, Hth, Z2Nat.id, Hfull by lia.
    replace (buffer_head rb + 1 + (buffer_length rb - 1))
      with (buffer_head rb + 1 * buffer_length rb) by lia.
    rewrite Z.mod_add by lia. symmetry. apply Z.mod_small; lia. }
  rewrite read_from_snoc by lia.
  rewrite <- Hwr, buf_at_set_eq by lia.
  simpl. rewrite drop_0. fold h1. f_equal.
  rewrite Hwr at 1. apply read_from_set_beyond; lia.
Qed.

Lemma dequeue_nonempty rb :
  allocated rb → invariant rb → 0 < buffer_size rb →
  ∃ item, (dequeue rb).1 = Some item
  ∧ contents rb = item :: contents (dequeue rb).2
  ∧ buffer_size (dequeue rb).2 = buffer_size rb - 1.
Proof.
  intros [Hlen Hmax] (Hsize & Hidx & Htail) Hpos.
  pose proof ptrdiff_lt_size as Hp.
  destruct Hidx as [Hh Ht]; [lia|].
  unfold dequeue, empty.
  destruct (Z.eqb_spec (buffer_length rb) 0) as [Hz|Hnz]; [lia|].
  destruct (Z.eqb_spec (buffer_size rb) 0) as [Hez|Hne]; [lia|].
  eexists. split; [done|]. unfold contents; simpl.
  rewrite (size_t_small (buffer_head rb + 1)) by lia.
  rewrite (size_t_small (buffer_size rb - 1)) by lia.
  split; [|done].
  replace (Z.to_nat (buffer_size rb))
    with (S (Z.to_nat (buffer_size rb - 1))) by lia.
  done.
Qed.


(** ** Runs of single enqueues and dequeues *)

Lemma enqueue_all_with_room xs : ∀ rb,
  allocated rb → invariant rb →
  buffer_size rb + Z.of_nat (Datatypes.length xs) ≤ buffer_length rb →
  (enqueue_all rb xs).1 = replicate (Datatypes.length xs) true
  ∧ contents (enqueue_all rb xs).2 = contents rb ++ xs
  ∧ buffer_size (enqueue_all rb xs).2
    = buffer_size rb + Z.of_nat (Datatypes.length xs)
  ∧ allocated (enqueue_all rb xs).2 ∧ invariant (enqueue_all rb xs).2.
Proof.
  induction xs as [|x xs IH]; intros rb Hal Hinv Hfit.
  - simpl. rewrite app_nil_r, Z.add_0_r. done.
  - simpl in Hfit.
    destruct (enqueue_with_room rb x Hal Hinv) as (Hok & Hc & Hs); [lia|].
    destruct (enqueue_preserves rb x Hal Hinv) as [Hal1 Hinv1].
    assert (Hlen1 : buffer_length (enqueue rb x).2 = buffer_length rb).
    { unfold enqueue. destruct (_ =? _); [done|]. by destruct (full rb). }
    simpl. destruct (enqueue rb x) as [ok rb1]. simpl in *.
    specialize (IH rb1 Hal1 Hinv1).
    destruct (enqueue_all rb1 xs) as [oks rb2]. simpl in *.
    destruct IH as (IH1 & IH2 & IH3 & IH4 & IH5); [lia|].
    rewrite Hok, IH1, IH2, IH3, Hc, Hs, <- app_assoc. simpl.
    split_and!; try done. lia.
Qed.

Lemma dequeue_many_contents (n : nat) : ∀ rb,
  allocated rb → invariant rb → buffer_size rb = Z.of_nat n →
  (dequeue_many n rb).1 = Some <$> contents rb
  ∧ buffer_size (dequeue_many n rb).2 = 0.
Proof.
  induction n as [|n IH]; intros rb Hal Hinv Hn.
  - simpl. unfold contents. rewrite Hn. done.
  - destruct (dequeue_nonempty rb Hal Hinv) as (item & Hd & Hc & Hs); [lia|].
    destruct (dequeue_preserves rb Hal Hinv) as [Hal1 Hinv1].
    simpl. destruct (dequeue rb) as [o rb1]. simpl in *.
    specialize (IH rb1 Hal1 Hinv1).
    destruct (dequeue_many n rb1) as [os rb2]. simpl in *.
    destruct IH as [IH1 IH2]; [lia|].
    rewrite Hd, IH1, Hc. done.
Qed.

(** C2. Take a buffer of capacity [c > 0] and enqueue the elements [xs]
    one at a time, their number together with what is already stored not
    exceeding [c]. Every enqueue succeeds, and the single dequeues that
    follow return first what was stored before and then the elements of
    [xs], each exactly once and in the order of insertion, after which the
    buffer is empty. For a buffer that starts empty the dequeues return
    exactly [xs]. *)
Theorem fifo_order rb (xs : list T) :
  allocated rb → invariant rb →
  0 < buffer_length rb →
  buffer_size rb + Z.of_nat (Datatypes.length xs) ≤ buffer_length rb →
  let stored := Z.to_nat (buffer_size rb) in
  let rb' := (enqueue_all rb xs).2 in
  (enqueue_all rb xs).1 = replicate (Datatypes.length xs) true
  ∧ (dequeue_many (stored + Datatypes.length xs) rb').1
    = (dequeue_many stored rb).1 ++ (Some <$> xs)
  ∧ empty (dequeue_many (stored + Datatypes.length xs) rb').2 = true.
Proof.
  intros Hal Hinv Hcap Hfit stored rb'.
  destruct (enqueue_all_with_room xs rb Hal Hinv Hfit)
    as (Hoks & Hc & Hs & Hal' & Hinv').
  fold rb' in Hc, Hs, Hal', Hinv'.
  assert (Hst : buffer_size rb = Z.of_nat stored)
    by (pose proof Hinv as [? _]; unfold stored; lia).
  destruct (dequeue_many_contents (stored + Datatypes.length xs) rb' Hal' Hinv')
    as [Hd He]; [lia|].
  destruct (dequeue_many_contents stored rb Hal Hinv Hst) as [Hd0 _].
  split; [done|]. split.
  - by rewrite Hd, Hd0, Hc, fmap_app.
  - unfold empty. by rewrite He.
Qed.

(** C5. On a full buffer of capacity [c > 0] a single [enqueue(item)]
    returns [true], drops exactly the oldest stored element, keeps the
    others in order and puts [item] after them as the newest, and leaves
    [size() = c]: the [c] dequeues that follow return what they would have
    returned before without its first value, and then [item]. *)
Theorem full_enqueue_overwrites_oldest rb (item : T) :
  allocated rb → invariant rb →
  0 < buffer_length rb → buffer_size rb = buffer_length rb →
  let c := Z.to_nat (buffer_length rb) in
  let rb' := (enqueue rb item).2 in
  (enqueue rb item).1 = true
  ∧ size rb' = buffer_length rb
  ∧ length rb' = buffer_length rb
  ∧ contents rb' = drop 1 (contents rb) ++ [item]
  ∧ (dequeue_many c rb').1 = drop 1 (dequeue_many c rb).1 ++ [Some item].
Proof.
  intros Hal Hinv Hcap Hfull c rb'.
  destruct (enqueue_when_full rb item Hal Hinv Hcap Hfull) as (Hok & Hc & Hs).
  destruct (enqueue_preserves rb item Hal Hinv) as [Hal' Hinv'].
  fold rb' in Hc, Hs, Hal', Hinv'.
  assert (Hlen : buffer_length rb' = buffer_length rb).
  { unfold rb', enqueue. destruct (_ =? _); [done|]. by destruct (full rb). }
  destruct (dequeue_many_contents c rb' Hal' Hinv') as [Hd' _];
    [unfold c; lia|].
  destruct (dequeue_many_contents c rb Hal Hinv) as [Hd _]; [unfold c; lia|].
  split_and!; try done.
  rewrite Hd', Hd, Hc, fmap_app, fmap_drop. done.
Qed.

(** ** The bulk [dequeue] with overlap *)

(** The output array after the copy loop: the cells from [i] on receive
    the elements read from position [pos]; the others are untouched. *)
Lemma dequeue_loop_items (n : nat) : ∀ (i : nat) keep pos items rb,
  0 < buffer_length rb ≤ PTRDIFF_MAX →
  0 ≤ pos < buffer_length rb →
  (i + n ≤ Datatypes.length items)%nat →
  (dequeue_loop n (Z.of_nat i) keep pos items rb).1
  = take i items ++ read_from (buffer rb) (buffer_length rb) pos n
    ++ drop (i + n) items.
Proof.
  induction n as [|n IH]; intros i keep pos items rb Hcap Hpos Hlen.
  - simpl. by rewrite Nat.add_0_r, take_drop.
  - pose proof ptrdiff_lt_size as Hp. cbn [dequeue_loop read_from].
    rewrite (size_t_small (pos + 1)) by lia.
    replace (Z.of_nat i + 1) with (Z.of_nat (S i)) by lia.
    set (rb1 := if Z.of_nat i <? keep then retire rb 1 else rb).
    assert (Hb : buffer rb1 = buffer rb ∧ buffer_length rb1 = buffer_length rb)
      by (unfold rb1; by destruct (_ <? _)).
    destruct Hb as [Hb Hl].
    rewrite IH; rewrite ?Hl, ?Hb, ?length_buf_set;
      [| lia | apply mod_in_range; lia | lia].
    unfold buf_set. rewrite Nat2Z.id.
    rewrite (take_S_r _ _ (buf_at (buffer rb) pos))
      by (apply list_lookup_insert_eq; lia).
    rewrite take_insert_ge by lia.
    rewrite drop_insert_lt by lia.
    replace (i + S n)%nat with (S i + n)%nat by lia.
    by rewrite <- app_assoc.
Qed.

(** C4. On a buffer of capacity [> 0] that stores at least [length]
    elements, with [overlap <= length <= capacity], the bulk
    [dequeue(items, length, overlap)] returns [true], writes the [length]
    oldest elements (those from [head] on) to the first [length] cells of
    the output and leaves the other cells alone, advances [head] by
    [length - overlap] (modulo the capacity) and lowers the count by
    [length - overlap]; a bulk dequeue of [overlap] elements that follows
    succeeds and returns exactly the last [overlap] elements of that
    read. *)
Theorem bulk_dequeue_overlap rb (items : list T) (n ov : Z) :
  allocated rb → invariant rb →
  0 < buffer_length rb →
  0 ≤ ov ≤ n → n ≤ buffer_length rb → n ≤ buffer_size rb →
  n ≤ Z.of_nat (Datatypes.length items) →
  ∃ out rb',
    dequeue_bulk rb items n ov = (true, out, rb')
    ∧ take (Z.to_nat n) out = take (Z.to_nat n) (contents rb)
    ∧ drop (Z.to_nat n) out = drop (Z.to_nat n) items
    ∧ buffer_head rb' = (buffer_head rb + (n - ov)) mod buffer_length rb
    ∧ buffer_size rb' = buffer_size rb - (n - ov)
    ∧ buffer rb' = buffer rb ∧ buffer_tail rb' = buffer_tail rb
    ∧ ∀ (items2 : list T) (ov2 : Z),
        0 ≤ ov2 ≤ ov → ov ≤ Z.of_nat (Datatypes.length items2) →
        ∃ out2 rb'',
          dequeue_bulk rb' items2 ov ov2 = (true, out2, rb'')
          ∧ take (Z.to_nat ov) out2
            = drop (Z.to_nat (n - ov)) (take (Z.to_nat n) out).
Proof.
  intros Hal Hinv Hcap Hov Hncap Hnsize Hitems.
  pose proof ptrdiff_lt_size as Hp.
  pose proof (dequeue_bulk_preserves rb items n ov) as Hpres.
  pose proof Hal as [Hlen Hmax]. pose proof Hinv as (Hsize & Hidx & Htail).
  destruct Hidx as [Hh Ht]; [done|].
  destruct Hpres as [Hal' Hinv']; [split; lia | split; lia | done | done |].
  (* the first read *)
  assert (Hread : ∀ (r : RingBuffer T) (its : list T) (m o : Z),
    allocated r → invariant r → 0 < buffer_length r →
    0 ≤ o ≤ m → m ≤ buffer_length r → m ≤ buffer_size r →
    m ≤ Z.of_nat (Datatypes.length its) →
    ∃ out r',
      dequeue_bulk r its m o = (true, out, r')
      ∧ out = read_from (buffer r) (buffer_length r) (buffer_head r) (Z.to_nat m)
              ++ drop (Z.to_nat m) its
      ∧ buffer r' = buffer r ∧ buffer_length r' = buffer_length r
      ∧ buffer_head r' = (buffer_head r + (m - o)) mod buffer_length r
      ∧ buffer_tail r' = buffer_tail r
      ∧ buffer_size r' = buffer_size r - (m - o)).
  { clear. intros r its m o [Hlen Hmax] (Hsize & Hidx & Htail).
    intros Hcap Ho Hm Hms Hits.
    pose proof ptrdiff_lt_size as Hp.
    destruct Hidx as [Hh Ht]; [done|].
    unfold dequeue_bulk.
    destruct (Z.gtb_spec m (buffer_length r)) as [?|_]; [lia|].
    destruct (Z.eqb_spec (buffer_length r) 0) as [?|_]; [lia|].
    destruct (Z.gtb_spec o m) as [?|_]; [lia|].
    destruct (Z.gtb_spec m (buffer_size r)) as [?|_]; [lia|]. simpl.
    rewrite (size_t_small (m - o)) by lia.
    pose proof (dequeue_loop_fields (Z.to_nat m) 0 (m - o) (buffer_head r)
                  its r (m - o)) as Hf.
    pose proof (dequeue_loop_items (Z.to_nat m) 0 (m - o) (buffer_head r)
                  its r) as Hi.
    simpl in Hf, Hi.
    destruct (dequeue_loop _ _ _ _ _ _) as [out r']. simpl in *.
    destruct Hf as (H1 & H2 & H3 & H4 & H5); [lia | lia | lia | lia |].
    exists out, r'. split_and!; try done. apply Hi; lia. }
  destruct (Hread rb items n ov)
    as (out & rb' & Hd & Hout & Hb & Hl & Hhd & Htl & Hsz); try done.
  exists out, rb'. rewrite Hd in Hal', Hinv'. simpl in Hal', Hinv'.
  assert (Htake : take (Z.to_nat n) out
                  = read_from (buffer rb) (buffer_length rb) (buffer_head rb)
                              (Z.to_nat n)).
  { rewrite Hout. apply take_app_length'. by rewrite length_read_from. }
  split_and!; try done.
  - rewrite Htake. unfold contents. symmetry. apply read_from_take. lia.
  - rewrite Hout. apply drop_app_length'. by rewrite length_read_from.
  - (* the read that follows *)
    intros items2 ov2 Hov2 Hitems2.
    destruct (Hread rb' items2 ov ov2)
      as (out2 & rb'' & Hd2 & Hout2 & _); try done; try lia.
    exists out2, rb''. split; [done|].
    rewrite Hout2, take_app_length' by (by rewrite length_read_from).
    rewrite Htake, Hb, Hl, Hhd.
    replace (Z.to_nat n) with (Z.to_nat (n - ov) + Z.to_nat ov)%nat by lia.
    rewrite read_from_drop by lia.
    by rewrite Z2Nat.id by lia.
Qed.

(** ** Rejected calls *)

(** C6. A call that is a misuse (any single or bulk [enqueue], [dequeue]
    or [front] on a zero-capacity buffer; a bulk [enqueue] longer than the
    capacity; a bulk [dequeue] longer than the capacity, with an overlap
    longer than the batch, or asking for more than is stored; a bulk
    [front] asking for more than is stored) reports failure through its
    return value; and whenever an operation reports failure, the buffer
    (contents, head, tail, count, capacity) and the caller's output array
    are exactly as before the call. *)
Theorem failure_leaves_state_unchanged c rb :
  (misuse c rb = true → failed (exec c rb).1 = true)
  ∧ (failed (exec c rb).1 = true →
       (exec c rb).2 = rb ∧ reply_array (exec c rb).1 = out_array c).
Proof.
  destruct c as [n| |x|xs n| |out n ov| |out n]; simpl;
    unfold enqueue, enqueue_bulk, dequeue, dequeue_bulk, front, front_bulk,
      empty, full, resize, scoped_lock, clear_call, make_unique;
    zbool;
    try (destruct (dequeue_loop _ _ _ _ _ _));
    simpl; split; intros; try done; try lia.
Qed.

(** ** The zero-capacity buffer *)

(** C10. A buffer constructed with capacity 0 answers [true] to [full()]
    and [true] to [empty()] at the same time: [full()] is
    [buffer_size >= buffer_length] and both are zero. [resize(0)] does
    not give such a buffer: the call never returns, and it stops with the
    capacity 0 and the count of the old buffer, so that for a buffer that
    stored elements [empty()] is still false. *)
Theorem zero_capacity_by_constructor_only (rb : RingBuffer T) :
  full (construct (T:=T) 0) = true ∧ empty (construct (T:=T) 0) = true
  ∧ (∀ rb', resize rb 0 ≠ Returns rb')
  ∧ ∃ st, resize rb 0 = Blocks st
      ∧ exec (Resize 0) rb = (Blocked, st)
      ∧ length st = 0 ∧ size st = size rb ∧ empty st = empty rb.
Proof.
  split_and!; [done | done | apply resize_never_returns |].
  eexists. split; [by apply resize_blocks|].
  done.
Qed.

End WithElement.

(** ** The theorems at concrete buffers of integers *)

Lemma wrapped_ok : allocated wrapped ∧ invariant wrapped.
Proof. unfold allocated, invariant. simpl. split_and!; by vm_compute. Defined.

Lemma full3_ok : allocated full3 ∧ invariant full3.
Proof. unfold allocated, invariant. simpl. split_and!; by vm_compute. Defined.

Lemma fifo_order_witness :
  (enqueue_all (construct 3) [10; 20; 30]).1 = [true; true; true]
  ∧ (dequeue_many 3 (enqueue_all (construct 3) [10; 20; 30]).2).1
    = [Some 10; Some 20; Some 30]
  ∧ (dequeue_many 4 (enqueue_all wrapped [10; 20; 30]).2).1
    = [Some 9; Some 10; Some 20; Some 30].
Proof.
  assert (Hc : allocated (construct (T:=Z) 3) ∧ invariant (construct (T:=Z) 3)).
  { unfold allocated, invariant. simpl. split_and!; by vm_compute. }
  destruct Hc as [Hal Hinv]. destruct wrapped_ok as [Hal' Hinv'].
  pose proof (fifo_order (construct 3) [10; 20; 30] Hal Hinv) as H3.
  pose proof (fifo_order wrapped [10; 20; 30] Hal' Hinv') as H4.
  simpl in H3, H4.
  destruct H3 as (H31 & H32 & _); [lia | lia |].
  destruct H4 as (_ & H42 & _); [lia | lia |].
  split; [exact H31|]. split; [exact H32 | exact H42].
Defined.

Lemma invariants_kept_except_by_resize_witness :
  (allocated wrapped ∧ invariant wrapped
   ∧ allocated (@exec Z (populate 0) (EnqueueBulk [7; 8; 9] 3) wrapped).2
   ∧ invariant (@exec Z (populate 0) (EnqueueBulk [7; 8; 9] 3) wrapped).2)
  ∧ ∃ st, @resize Z (populate 0) full3 1 = Blocks st
      ∧ buffer_length st = 1 ∧ buffer_size st = 3 ∧ ¬ invariant st.
Proof.
  destruct (@invariants_kept_except_by_resize Z (populate 0))
    as (Hkeep & _ & Hstop).
  split.
  - assert (Hty : well_typed (T:=Z) (EnqueueBulk [7; 8; 9] 3))
      by by vm_compute.
    destruct wrapped_ok as [Hal Hinv].
    split; [exact Hal|]. split; [exact Hinv|].
    exact (proj2 (Hkeep (EnqueueBulk [7; 8; 9] 3) wrapped eq_refl Hty Hal
                        Hinv)).
  - destruct (Hstop full3 1) as (st & Hst & _ & Hl & Hs & Hno);
      [by vm_compute | by vm_compute |].
    exists st. split; [exact Hst|]. split; [exact Hl|].
    split; [exact Hs | exact Hno].
Defined.

Lemma zero_capacity_by_constructor_only_witness :
  ∃ st, @resize Z (populate 0) full3 0 = Blocks st
    ∧ length st = 0 ∧ size st = 3 ∧ empty st = false.
Proof.
  destruct (@zero_capacity_by_constructor_only Z (populate 0) full3)
    as (_ & _ & _ & st & Hst & _ & Hl & Hs & He).
  exists st. split; [exact Hst|]. split; [exact Hl|].
  split; [exact Hs | exact He].
Defined.

Lemma bulk_dequeue_overlap_witness :
  ∃ out rb',
    dequeue_bulk full3 [0; 0; 0; 0] 3 2 = (true, out, rb')
    ∧ take 3 out = [10; 20; 30]
    ∧ buffer_head rb' = 2 ∧ buffer_size rb' = 2
    ∧ ∃ out2 rb'',
        dequeue_bulk rb' [0; 0] 2 0 = (true, out2, rb'')
        ∧ take 2 out2 = [20; 30].
Proof.
  destruct full3_ok as [Hal Hinv].
  destruct (bulk_dequeue_overlap full3 [0; 0; 0; 0] 3 2 Hal Hinv)
    as (out & rb' & Hd & Ht & _ & Hh & Hs & _ & _ & Hnext);
    [by vm_compute | by vm_compute | by vm_compute | by vm_compute
    | by vm_compute |].
  destruct (Hnext [0; 0] 0) as (out2 & rb'' & Hd2 & Ht2);
    [by vm_compute | by vm_compute |].
  exists out, rb'. split; [exact Hd|]. split; [exact Ht|].
  split; [exact Hh|]. split; [exact Hs|].
  exists out2, rb''. split; [exact Hd2|].
  transitivity (drop 1 (take 3 out)); [exact Ht2|].
  exact (f_equal (drop 1) Ht).
Defined.

Lemma full_enqueue_overwrites_oldest_witness :
  (enqueue full3 40).1 = true
  ∧ size (enqueue full3 40).2 = 3
  ∧ contents full3 = [10; 20; 30]
  ∧ contents (enqueue full3 40).2 = [20; 30; 40]
  ∧ (dequeue_many 3 (enqueue full3 40).2).1 = [Some 20; Some 30; Some 40].
Proof.
  destruct full3_ok as [Hal Hinv].
  destruct (full_enqueue_overwrites_oldest full3 40 Hal Hinv)
    as (Hok & Hs & _ & Hc & Hd); [by vm_compute | by vm_compute |].
  split; [exact Hok|]. split; [exact Hs|]. split; [reflexivity|].
  split; [exact Hc | exact Hd].
Defined.

Lemma failure_leaves_state_unchanged_witness :
  misuse (DequeueBulk [0; 0] 2 0) wrapped = true
  ∧ failed (exec (DequeueBulk [0; 0] 2 0) wrapped).1 = true
  ∧ (exec (DequeueBulk [0; 0] 2 0) wrapped).2 = wrapped
  ∧ reply_array (exec (DequeueBulk [0; 0] 2 0) wrapped).1 = [0; 0].
Proof.
  destruct (failure_leaves_state_unchanged (DequeueBulk [0; 0] 2 0) wrapped)
    as [Hfail Hsame].
  split; [reflexivity|]. split; [apply Hfail; reflexivity|].
  apply Hsame, Hfail. reflexivity.
Defined.

End RingBufferTheory.

(* ===================================================================== *)
(** * Properties of the graph *)
(* ===================================================================== *)

Module GraphTheory.
Import GraphModel.

(** ** [addEdge] *)

Lemma addEdge_out_of_range g u v w :
  ¬ (0 ≤ u < num_nodes g ∧ 0 ≤ v < num_nodes g) →
  addEdge g u v w = (g, Some (out_of_range "Node index out of range")).
Proof.
  intros Hout. unfold addEdge.
  destruct (Z.geb_spec u (num_nodes g)); [done|].
  destruct (Z.ltb_spec u 0); [done|].
  destruct (Z.geb_spec v (num_nodes g)); [done|].
  destruct (Z.ltb_spec v 0); [done|]. lia.
Qed.

Lemma addEdge_in_range g u v w :
  0 ≤ u < num_nodes g → 0 ≤ v < num_nodes g →
  addEdge g u v w
  = ({| num_nodes := num_nodes g; num_edges := num_edges g + 1;
        nbr := push_edge (push_edge (nbr g) u (mkEdge v w)) v (mkEdge u w);
        dist := dist g; prev := prev g |}, None).
Proof.
  intros Hu Hv. unfold addEdge.
  destruct (Z.geb_spec u (num_nodes g)); [lia|].
  destruct (Z.ltb_spec u 0); [lia|].
  destruct (Z.geb_spec v (num_nodes g)); [lia|].
  destruct (Z.ltb_spec v 0); [lia|]. done.
Qed.

(** The adjacency lists after the two [push_back]s. *)
Lemma push_edges_lookup (adj : list (list Edge)) u v w (i : nat) edges :
  0 ≤ u → 0 ≤ v → adj !! i = Some edges →
  push_edge (push_edge adj u (mkEdge v w)) v (mkEdge u w) !! i
  = Some (edges ++ (if decide (Z.of_nat i = u) then [mkEdge v w] else [])
                ++ (if decide (Z.of_nat i = v) then [mkEdge u w] else [])).
Proof.
  intros Hu Hv Hi. unfold push_edge.
  destruct (decide (Z.of_nat i = u)) as [Eu|Nu],
           (decide (Z.of_nat i = v)) as [Ev|Nv].
  - subst u v. rewrite Nat2Z.id, !list_lookup_alter_eq, Hi. simpl.
    by rewrite <- app_assoc.
  - subst u. rewrite list_lookup_alter_ne by lia.
    by rewrite Nat2Z.id, list_lookup_alter_eq, Hi.
  - subst v. rewrite Nat2Z.id, list_lookup_alter_eq.
    rewrite list_lookup_alter_ne by lia. by rewrite Hi.
  - rewrite !list_lookup_alter_ne by lia. by rewrite Hi, !app_nil_r.
Qed.

Lemma addEdges_snoc g calls u v w :
  addEdges g (calls ++ [(u, v, w)])
  = let '(g1, log) := addEdges g calls in
    let '(g2, r) := addEdge g1 u v w in (g2, log ++ [r]).
Proof.
  unfold addEdges. rewrite foldl_app. simpl.
  by destruct (foldl _ _ _) as [g1 log].
Qed.

Lemma successes_snoc log r :
  successes (log ++ [r])
  = successes log + (if decide (r = None) then 1 else 0).
Proof.
  unfold successes. rewrite filter_app, length_app.
  rewrite filter_cons, filter_nil.
  destruct (decide (r = None)); simpl; lia.
Qed.

Lemma addEdges_count calls : ∀ g,
  getNumEdges (addEdges g calls).1
  = getNumEdges g + successes (addEdges g calls).2
  ∧ length (addEdges g calls).2 = length calls.
Proof.
  induction calls as [|[[u v] w] calls IH] using rev_ind; intros g.
  - simpl. unfold successes. simpl. split; [lia | done].
  - rewrite addEdges_snoc. specialize (IH g).
    destruct (addEdges g calls) as [g1 log]. simpl in IH.
    destruct IH as [IH Hlen].
    destruct (decide (0 ≤ u < num_nodes g1 ∧ 0 ≤ v < num_nodes g1))
      as [[Hu Hv]|Hout].
    + rewrite addEdge_in_range by done. simpl.
      rewrite successes_snoc, !length_app. simpl.
      unfold getNumEdges in *. simpl. split; lia.
    + rewrite addEdge_out_of_range by done. simpl.
      rewrite successes_snoc, !length_app. simpl. split; lia.
Qed.

(** C9. [addEdge(u, v, w)] with [u] or [v] outside [[0, numNodes)] throws
    [std::out_of_range] and leaves the graph, hence [numEdges] and every
    adjacency list, as it was. With both in range it returns normally,
    appends [(v, w)] to [adjacency[u]] and [(u, w)] to [adjacency[v]],
    changes no other list, and adds exactly one to [numEdges]. So after
    any run of calls (fewer than [INT_MAX] of them, so that the counter
    does not overflow) on a fresh graph, [getNumEdges()] is the number of
    calls that returned normally. *)
Theorem addEdge_checked g u v w :
  (¬ (0 ≤ u < num_nodes g ∧ 0 ≤ v < num_nodes g) →
     addEdge g u v w = (g, Some (out_of_range "Node index out of range")))
  ∧ (0 ≤ u < num_nodes g ∧ 0 ≤ v < num_nodes g →
     ∃ g', addEdge g u v w = (g', None)
       ∧ getNumEdges g' = getNumEdges g + 1
       ∧ num_nodes g' = num_nodes g
       ∧ length (nbr g') = length (nbr g)
       ∧ ∀ (i : nat) edges, nbr g !! i = Some edges →
           nbr g' !! i
           = Some (edges
                   ++ (if decide (Z.of_nat i = u) then [mkEdge v w] else [])
                   ++ (if decide (Z.of_nat i = v) then [mkEdge u w] else [])))
  ∧ (∀ n calls, Z.of_nat (length calls) ≤ INT_MAX →
       getNumEdges (addEdges (construct n) calls).1
       = successes (addEdges (construct n) calls).2).
Proof.
  split; [apply addEdge_out_of_range|]. split.
  - intros [Hu Hv]. eexists. split; [by apply addEdge_in_range|].
    simpl. split_and!; try done.
    + unfold push_edge. by rewrite !length_alter.
    + intros i edges Hi. apply push_edges_lookup; lia || done.
  - intros n calls _.
    destruct (addEdges_count calls (construct n)) as [-> _].
    unfold getNumEdges. simpl. lia.
Qed.

(** ** Vectors and the priority queue *)

Lemma vec_get_in_range {A} (v : list A) (i : Z) :
  0 ≤ i < Z.of_nat (length v) →
  ∃ a, vec_get v i = Done a ∧ v !! Z.to_nat i = Some a.
Proof.
  intros Hi. unfold vec_get.
  destruct (Z.ltb_spec i 0); [lia|].
  destruct (lookup_lt_is_Some_2 v (Z.to_nat i)) as [a Ha]; [lia|].
  rewrite Ha. by exists a.
Qed.

Lemma vec_set_in_range {A} (v : list A) (i : Z) (x : A) :
  0 ≤ i < Z.of_nat (length v) →
  vec_set v i x = Done (<[Z.to_nat i := x]> v).
Proof.
  intros Hi. unfold vec_set.
  destruct (Z.ltb_spec i 0); [lia|].
  destruct (lookup_lt_is_Some_2 v (Z.to_nat i)) as [a Ha]; [lia|].
  by rewrite Ha.
Qed.

Lemma elem_of_pq_emplace (x p : pii) (q : list pii) :
  p ∈ pq_emplace x q ↔ p = x ∨ p ∈ q.
Proof.
  induction q as [|y q IH]; simpl.
  - rewrite list_elem_of_singleton. split; [by left|].
    intros [?|Hp]; [done | by apply elem_of_nil in Hp].
  - destruct (pii_lt x y).
    + by rewrite elem_of_cons.
    + rewrite !elem_of_cons, IH. tauto.
Qed.

Lemma length_pq_emplace (x : pii) (q : list pii) :
  length (pq_emplace x q) = S (length q).
Proof.
  induction q as [|y q IH]; simpl; [done|].
  destruct (pii_lt x y); simpl; by rewrite ?IH.
Qed.

(** ** The loops of [dijkstra] end, and never leave the reachable part *)

Lemma pending_fresh (adj : list (list Edge)) :
  pending adj (replicate (length adj) false) = sum_list (length <$> adj).
Proof.
  unfold pending. induction adj as [|edges adj IH]; simpl; [done|].
  by rewrite IH.
Qed.

(** Finalizing a node takes its adjacency entries out of [pending]. *)
Lemma pending_finalize (adj : list (list Edge)) :
  ∀ (used : list bool) i edges,
  adj !! i = Some edges → used !! i = Some false →
  (pending adj (<[i := true]> used) + length edges)%nat = pending adj used.
Proof.
  unfold pending.
  induction adj as [|es adj IH]; intros used i edges Hadj Hused; [done|].
  destruct used as [|u used]; [done|].
  destruct i as [|i]; simpl in *.
  - injection Hadj as ->. injection Hused as ->. simpl. lia.
  - rewrite <- (IH used i edges Hadj Hused). lia.
Qed.

Section Search.
Variables (g : Graph) (source : Z).
Hypothesis Hwf : well_formed g.

Lemma relax_ok (edges : list Edge) (currentDist from : Z) : ∀ fr,
  frame_ok g source fr →
  reachable g source from →
  (∀ e, e ∈ edges → 0 ≤ to e < num_nodes g ∧ adjacent g from (to e)) →
  ∃ fr', relax edges currentDist from fr = Done fr'
    ∧ frame_ok g source fr'
    ∧ used fr' = used fr
    ∧ (length (fringe fr') ≤ length (fringe fr) + length edges)%nat.
Proof.
  destruct Hwf as [Hn _].
  induction edges as [|e edges IH]; intros fr Hok Hfrom Hedges.
  - exists fr. simpl. split_and!; try done. lia.
  - destruct (Hedges e) as [Hto Hadj]; [by left|].
    assert (Hrest : ∀ e', e' ∈ edges →
              0 ≤ to e' < num_nodes g ∧ adjacent g from (to e'))
      by (intros e' He'; apply Hedges; by right).
    pose proof Hok as (Hnbr & Hnum & Hlu & Hld & Hlp & Hfr & Hprev).
    cbn [relax].
    destruct (vec_get_in_range (used fr) (to e)) as (u & -> & _); [lia|].
    cbn [mbind outcome_bind].
    destruct u.
    { destruct (IH fr Hok Hfrom Hrest) as (fr' & ? & ? & ? & ?).
      exists fr'. split_and!; try done. simpl. lia. }
    destruct (vec_get_in_range (dist (self fr)) (to e)) as (d & -> & _); [lia|].
    cbn [mbind outcome_bind].
    set (weight_ := double_to_int _).
    destruct ((d =? -1) || (weight_ <? d)).
    + rewrite !vec_set_in_range by lia. cbn [mbind outcome_bind].
      destruct (vec_get_in_range (<[Z.to_nat (to e) := weight_]> (dist (self fr)))
                  (to e)) as (d' & -> & _); [rewrite length_insert; lia|].
      cbn [mbind outcome_bind].
      match goal with |- context [relax edges currentDist from ?f] =>
        destruct (IH f) as (fr' & Hrun & Hok' & Hused & Hlen) end;
        [|done|done|].
      * split_and!; simpl; try done; rewrite ?length_insert; try done.
        -- intros p Hp. apply elem_of_pq_emplace in Hp as [->|Hp];
             [|by apply Hfr].
           simpl. split; [done|]. eapply rtc_r; done.
        -- intros i p Hi Hp.
           destruct (decide (i = Z.to_nat (to e))) as [->|Hne].
           ++ rewrite Z2Nat.id by lia. eapply rtc_r; done.
           ++ rewrite list_lookup_insert_ne in Hi by done.
              by eapply Hprev.
      * exists fr'. split_and!; try done.
        simpl in Hlen. rewrite length_pq_emplace in Hlen. simpl. lia.
    + destruct (IH fr Hok Hfrom Hrest) as (fr' & ? & ? & ? & ?).
      exists fr'. split_and!; try done. simpl. lia.
Qed.

Lemma dijkstra_loop_ok (fuel : nat) : ∀ fr,
  frame_ok g source fr → (budget fr < fuel)%nat →
  ∃ fr', dijkstra_loop fuel fr = Done fr'
    ∧ frame_ok g source fr' ∧ fringe fr' = [].
Proof.
  destruct Hwf as [Hn Hedges].
  induction fuel as [|fuel IH]; intros fr Hok Hfuel; [lia|].
  pose proof Hok as (Hnbr & Hnum & Hlu & Hld & Hlp & Hfr & Hprev).
  destruct fr as [me used_ fringe_]. simpl in *.
  destruct fringe_ as [|[currentDist from] popped]; [by eexists|].
  destruct (Hfr (currentDist, from)) as [Hrange Hreach]; [by left|].
  simpl in Hrange, Hreach.
  assert (Hfr' : ∀ p : pii, p ∈ popped →
            0 ≤ p.2 < num_nodes g ∧ reachable g source p.2)
    by (intros p Hp; apply Hfr; by right).
  destruct (vec_get_in_range used_ from) as (u & -> & Hu); [lia|].
  cbn [mbind outcome_bind].
  unfold budget in Hfuel. simpl in Hfuel.
  destruct u.
  - apply IH; [done|]. unfold budget. simpl. lia.
  - rewrite vec_set_in_range by lia. cbn [mbind outcome_bind].
    destruct (vec_get_in_range (nbr me) from) as (edges & -> & Hadj);
      [rewrite Hnbr; lia|].
    cbn [mbind outcome_bind].
    destruct (relax_ok edges currentDist from
                {| self := me; used := <[Z.to_nat from := true]> used_;
                   fringe := popped |})
      as (fr' & -> & Hok' & Hused & Hlen); [| done | |].
    + split_and!; simpl; try done. by rewrite length_insert.
    + intros e He. split.
      * apply (Hedges edges); [|done].
        rewrite <- Hnbr. by eapply list_elem_of_lookup_2.
      * exists edges, e. split_and!; try done.
        unfold vec_get. destruct (Z.ltb_spec from 0); [lia|].
        by rewrite <- Hnbr, Hadj.
    + cbn [mbind outcome_bind]. apply IH; [done|].
      pose proof Hok' as (Hnbr' & _).
      unfold budget. rewrite Hused, Hnbr', <- Hnbr. simpl in *.
      pose proof (pending_finalize (nbr me) used_ (Z.to_nat from) edges
                    Hadj Hu).
      lia.
Qed.

Lemma dijkstra_ok (fuel : nat) :
  0 ≤ source < num_nodes g → (total_degree g + 1 < fuel)%nat →
  ∃ g', dijkstra fuel g source = Done g'
    ∧ nbr g' = nbr g ∧ num_nodes g' = num_nodes g
    ∧ length (prev g') = length (nbr g)
    ∧ ∀ (i : nat) (p : Z), prev g' !! i = Some p → p ≠ -1 →
        reachable g source (Z.of_nat i).
Proof.
  intros Hsrc Hfuel. destruct Hwf as [Hn Hedges].
  unfold dijkstra.
  rewrite vec_set_in_range by (rewrite length_replicate; lia).
  cbn [mbind outcome_bind].
  match goal with |- context [vec_get ?v source] =>
    destruct (vec_get_in_range v source) as (d & -> & _) end;
    [rewrite length_insert, length_replicate; lia|].
  cbn [mbind outcome_bind].
  match goal with |- context [dijkstra_loop fuel ?f] =>
    destruct (dijkstra_loop_ok fuel f) as (fr' & -> & Hok & _) end.
  - split_and!; simpl; try done;
      rewrite ?length_insert, ?length_replicate; try lia.
    + intros p Hp. apply list_elem_of_singleton in Hp as ->. simpl.
      split; [done | apply rtc_refl].
    + intros i p Hi Hp. apply lookup_replicate in Hi as [-> _]. done.
  - unfold budget. simpl.
    replace (Z.to_nat (num_nodes g)) with (length (nbr g)) by lia.
    rewrite pending_fresh. unfold total_degree in Hfuel. lia.
  - cbn [mbind outcome_bind].
    destruct Hok as (Hnbr & Hnum & _ & _ & Hlp & _ & Hprev).
    by exists (self fr').
Qed.

End Search.

(** ** Well-formed graphs exist: the constructor and [addEdge] *)

Lemma well_formed_construct n : 0 ≤ n → well_formed (construct n).
Proof.
  intros Hn. split; simpl.
  - rewrite length_replicate. lia.
  - intros edges e Hedges He. apply elem_of_replicate_inv in Hedges as ->.
    by apply elem_of_nil in He.
Qed.

Lemma well_formed_addEdge g u v w :
  well_formed g → well_formed (addEdge g u v w).1.
Proof.
  intros [Hn Hedges].
  destruct (decide (0 ≤ u < num_nodes g ∧ 0 ≤ v < num_nodes g))
    as [[Hu Hv]|Hout].
  2: { by rewrite addEdge_out_of_range. }
  rewrite addEdge_in_range by done. split; simpl.
  - unfold push_edge. by rewrite !length_alter.
  - intros edges e Hin He.
    apply list_elem_of_lookup_1 in Hin as [i Hi].
    destruct (lookup_lt_is_Some_2 (nbr g) i) as [old Hold].
    { apply lookup_lt_Some in Hi. unfold push_edge in Hi.
      by rewrite !length_alter in Hi. }
    rewrite (push_edges_lookup _ u v w i old) in Hi by (lia || done).
    injection Hi as <-.
    apply elem_of_app in He as [He|He].
    { apply (Hedges old); [by eapply list_elem_of_lookup_2 | done]. }
    apply elem_of_app in He as [He|He];
      destruct (decide _); try (by apply elem_of_nil in He);
      apply list_elem_of_singleton in He as ->; simpl; lia.
Qed.

(** ** [shortestPath] *)

Lemma recover_path_end (fuel : nat) (prev : list Z) (path : list Z) :
  recover_path fuel prev (-1) path = Done path.
Proof. by destruct fuel. Qed.

(** C8. [shortestPath(a, a)] leaves in [message] the node id written
    twice with ["-"] between (["0-0"] for node 0), for every [a]. For two
    nodes [a], [b] of a well-formed graph with [b] not reachable from [a]
    along edges, [shortestPath(a, b)] ends (any loop budget above the
    number of adjacency entries plus one is enough) and leaves [message]
    empty. *)
Theorem degenerate_and_unreachable_paths g a b (fuel : nat) :
  shortestPath fuel g a a = Done (g, to_string a +:+ "-" +:+ to_string a)
  ∧ (well_formed g →
     0 ≤ a < num_nodes g → 0 ≤ b < num_nodes g →
     ¬ reachable g a b →
     (total_degree g + 1 < fuel)%nat →
     ∃ g', shortestPath fuel g a b = Done (g', "")).
Proof.
  split.
  - unfold shortestPath. by rewrite Z.eqb_refl.
  - intros Hwf Ha Hb Hunreach Hfuel. unfold shortestPath.
    destruct (Z.eqb_spec a b) as [->|Hne]; [destruct Hunreach; apply rtc_refl|].
    destruct (dijkstra_ok g a Hwf fuel Ha Hfuel)
      as (g' & -> & Hnbr & Hnum & Hlen & Hprev).
    cbn [mbind outcome_bind].
    destruct fuel as [|fuel]; [lia|]. cbn [recover_path].
    destruct (Z.eqb_spec b (-1)); [lia|].
    destruct Hwf as [Hn _].
    destruct (vec_get_in_range (prev g') b) as (p & -> & Hp); [lia|].
    cbn [mbind outcome_bind].
    assert (p = -1) as ->.
    { destruct (decide (p = -1)) as [|Hp']; [done|].
      destruct Hunreach. specialize (Hprev _ _ Hp Hp').
      by rewrite Z2Nat.id in Hprev by lia. }
    rewrite recover_path_end. cbn [mbind outcome_bind]. simpl.
    by exists g'.
Qed.

(** C1. In a graph constructed with [N >= 3] nodes into which exactly the
    edges [(0,1,1.0)], [(1,2,1.0)], [(0,2,5.0)] have been inserted, in any
    order, [shortestPath(0, 2)] ends (a loop budget of 5 is enough) and
    leaves ["0-1-2"] in [message]. *)
Theorem shortest_path_three_edges (N : Z) (calls : list (Z * Z * double))
    (fuel : nat) :
  3 ≤ N → calls ≡ₚ three_edges → (5 ≤ fuel)%nat →
  ∃ g', shortestPath fuel (addEdges (construct N) calls).1 0 2
        = Done (g', "0-1-2").
Proof.
  intros HN Hperm Hfuel.
  assert (∃ m, Z.to_nat N = S (S (S m))) as [m Hm]
    by (exists (Z.to_nat N - 3)%nat; lia).
  assert (∃ k, fuel = S (S (S (S (S k))))) as [k ->]
    by (exists (fuel - 5)%nat; lia).
  symmetry in Hperm. apply permutations_Permutation in Hperm.
  vm_compute in Hperm.
  repeat (apply elem_of_cons in Hperm as [->|Hperm]);
    [..| by apply elem_of_nil in Hperm];
    unfold addEdges; cbn [foldl];
    repeat (rewrite addEdge_in_range by (simpl; lia); cbn [app]);
    unfold shortestPath, dijkstra, construct; cbn [num_nodes nbr fst];
    rewrite Hm; vm_compute; by eexists.
Qed.

(** C7 (what the code does instead). The relaxation stores
    [int weight = edge.weight + currentDist]: the sum converted to [int].
    With the single edge [(0, 1, 0.5)] the exact sum at node 1 is
    [0 + 0.5 = 0.5], and the tentative distance assigned is [0]. In the
    triangle [detour] the two edges of weight [0.75] count as [0] each,
    so [shortestPath(0, 2)] reports the path over node 1, of weight
    [1.5], instead of the direct edge of weight [1.0]. *)
Theorem relaxation_truncates_weight :
  double_add (double_lit 1 (-1)) (int_to_double 0) = double_lit 1 (-1)
  ∧ (∃ g', dijkstra 2 half_edge 0 = Done g' ∧ dist g' = [0; 0])
  ∧ int_to_double 0 ≠ double_lit 1 (-1)
  ∧ (∃ g', shortestPath 5 detour 0 2 = Done (g', "0-1-2")
           ∧ dist g' = [0; 0; 0]).
Proof.
  split; [by vm_compute|]. split; [by vm_compute; eexists|].
  split; [by vm_compute|]. vm_compute. by eexists.
Qed.

(** ** The theorems at concrete graphs *)

Lemma island_well_formed : well_formed island.
Proof.
  change island with (addEdge (construct 3) 0 1 (double_lit 1 (0))).1.
  apply well_formed_addEdge, well_formed_construct. lia.
Qed.

(** From node 0 of [island] only the nodes 0 and 1 are reached. *)
Lemma island_reach (v : Z) : reachable island 0 v → v = 0 ∨ v = 1.
Proof.
  intros Hreach. apply rtc_nsteps in Hreach as [n Hn].
  assert (Hgen : ∀ u, (u = 0 ∨ u = 1) → nsteps (adjacent island) n u v →
                      v = 0 ∨ v = 1); [|by apply (Hgen 0); [left|]].
  clear Hn. induction n as [|n IH]; intros u Hu Hsteps.
  - by inversion Hsteps; subst.
  - inversion Hsteps as [|? ? y ? Hadj Hrest]; subst.
    apply (IH y); [|done].
    destruct Hadj as (edges & e & Hget & He & <-).
    destruct Hu as [->| ->]; vm_compute in Hget; injection Hget as <-;
      apply list_elem_of_singleton in He as ->; simpl; lia.
Qed.

Lemma island_unreachable : ¬ reachable island 0 2.
Proof. intros H. apply island_reach in H. lia. Qed.

Lemma shortest_path_three_edges_witness :
  ∃ g', shortestPath 5 (addEdges (construct 4) three_edges).1 0 2
        = Done (g', "0-1-2").
Proof.
  apply (shortest_path_three_edges 4 three_edges 5); [lia | reflexivity | lia].
Defined.

Lemma degenerate_and_unreachable_paths_witness :
  shortestPath 4 island 0 0 = Done (island, "0-0")
  ∧ ∃ g', shortestPath 4 island 0 2 = Done (g', "").
Proof.
  destruct (degenerate_and_unreachable_paths island 0 2 4) as [Hsame Hnone].
  split; [exact Hsame|].
  apply Hnone;
    [exact island_well_formed | by vm_compute | by vm_compute
    | exact island_unreachable | vm_compute; lia].
Defined.

Lemma addEdge_checked_witness :
  addEdge (construct 3) 0 5 (double_lit 1 0)
  = (construct 3, Some (out_of_range "Node index out of range"))
  ∧ (∃ g', addEdge (construct 3) 0 1 (double_lit 1 0) = (g', None)
           ∧ getNumEdges g' = 1
           ∧ nbr g' !! 0%nat = Some [mkEdge 1 (double_lit 1 0)]
           ∧ nbr g' !! 1%nat = Some [mkEdge 0 (double_lit 1 0)]
           ∧ nbr g' !! 2%nat = Some [])
  ∧ getNumEdges (addEdges (construct 3)
                   [(0, 1, double_lit 1 0); (0, 7, double_lit 1 0);
                    (-1, 2, double_lit 1 0); (1, 2, double_lit 1 0)]).1 = 2.
Proof.
  destruct (addEdge_checked (construct 3) 0 5 (double_lit 1 0))
    as (Hthrow & _ & Hcount).
  destruct (addEdge_checked (construct 3) 0 1 (double_lit 1 0))
    as (_ & Hadd & _).
  split; [apply Hthrow; vm_compute; intros [_ [_ H]]; discriminate H|].
  split.
  - destruct Hadd as (g' & Hg' & Hnum & _ & _ & Hnbr);
      [by vm_compute|].
    exists g'. split; [exact Hg'|]. split; [exact Hnum|].
    split; [exact (Hnbr 0%nat [] eq_refl)|].
    split; [exact (Hnbr 1%nat [] eq_refl) | exact (Hnbr 2%nat [] eq_refl)].
  - rewrite Hcount; [reflexivity | by vm_compute].
Defined.

End GraphTheory.

(* ===================================================================== *)
(** * Further properties of the ring buffer *)
(* ===================================================================== *)

Module RingBufferLaws.
Import RingBufferModel RingBufferTheory.

Section WithElement.
Context {T : Type} `{!Inhabited T}.
Implicit Types (rb : RingBuffer T) (b items : list T) (c : call T).

(** ** [clear], [resize] and the constructor *)



(** ** The capacity is fixed *)





(** ** Peeking *)

Lemma front_head rb : invariant rb → front rb = head (contents rb).
Proof.
  intros (Hsize & _ & _). unfold front, empty, contents.
  destruct (Z.eqb_spec (buffer_length rb) 0) as [Hz|Hnz].
  { by replace (buffer_size rb) with 0 by lia. }
  destruct (Z.eqb_spec (buffer_size rb) 0) as [->|Hne]; [done|].
  replace (Z.to_nat (buffer_size rb))
    with (S (Z.to_nat (buffer_size rb - 1))) by lia.
  done.
Qed.

(** X4. [front()] returns what the next [dequeue()] would return, an
    element or nothing, and on a buffer that satisfies the invariants
    that is the oldest stored element. *)
Theorem front_is_peek rb :
  front rb = (dequeue rb).1
  ∧ (invariant rb → front rb = head (contents rb)).
Proof.
  split; [|apply front_head].
  unfold front, dequeue. destruct (_ =? _); [done|]. by destruct (empty rb).
Qed.

Lemma front_loop_ext (n : nat) : ∀ idx pos items rb rb2,
  buffer rb = buffer rb2 → buffer_length rb = buffer_length rb2 →
  front_loop n idx pos items rb = front_loop n idx pos items rb2.
Proof.
  induction n as [|n IH]; intros idx pos items rb rb2 Hb Hl; [done|].
  simpl. rewrite Hb, Hl. by apply IH.
Qed.

(** The cells the copy loop of the bulk [dequeue] writes do not depend
    on how many elements it retires. *)
Lemma dequeue_loop_out (n : nat) : ∀ idx keep pos items rb,
  (dequeue_loop n idx keep pos items rb).1 = front_loop n idx pos items rb.
Proof.
  induction n as [|n IH]; intros idx keep pos items rb; [done|].
  cbn [dequeue_loop front_loop]. rewrite IH.
  apply front_loop_ext; by destruct (idx <? keep).
Qed.

Lemma dequeue_loop_keep_all (n : nat) : ∀ idx pos items rb,
  0 ≤ idx → (dequeue_loop n idx 0 pos items rb).2 = rb.
Proof.
  induction n as [|n IH]; intros idx pos items rb Hidx; [done|].
  cbn [dequeue_loop].
  destruct (Z.ltb_spec idx 0); [lia|]. apply IH. lia.
Qed.

Lemma front_bulk_reads rb items (n : Z) :
  allocated rb → invariant rb → 0 < buffer_length rb →
  0 ≤ n ≤ buffer_size rb → n ≤ Z.of_nat (Datatypes.length items) →
  front_bulk rb items n
  = (true, take (Z.to_nat n) (contents rb) ++ drop (Z.to_nat n) items).
Proof.
  intros [Hlen Hmax] (Hsize & Hidx & Htail) Hcap Hn Hitems.
  destruct Hidx as [Hh Ht]; [done|].
  unfold front_bulk.
  destruct (Z.gtb_spec n (buffer_length rb)); [lia|].
  destruct (Z.eqb_spec (buffer_length rb) 0); [lia|].
  destruct (Z.gtb_spec n (buffer_size rb)); [lia|]. simpl.
  rewrite <- (dequeue_loop_out _ 0 0).
  rewrite (dequeue_loop_items (Z.to_nat n) 0) by lia.
  unfold contents. rewrite read_from_take by lia. done.
Qed.

(** X5. The bulk [front] succeeds exactly when the bulk [dequeue] of the
    same length does (for any overlap not above the length) and writes
    the same output array. On an allocated buffer satisfying the
    invariants, with [length] elements stored, the first [length] cells
    of the output receive the [length] oldest elements and the other
    cells are left alone. *)
Theorem front_bulk_copies_oldest rb items (n ov : Z) :
  (ov ≤ n →
     front_bulk rb items n
     = ((dequeue_bulk rb items n ov).1.1, (dequeue_bulk rb items n ov).1.2))
  ∧ (allocated rb → invariant rb → 0 < buffer_length rb →
     0 ≤ n ≤ buffer_size rb → n ≤ Z.of_nat (Datatypes.length items) →
     front_bulk rb items n
     = (true, take (Z.to_nat n) (contents rb) ++ drop (Z.to_nat n) items)).
Proof.
  split; [|apply front_bulk_reads].
  intros Hov. unfold front_bulk, dequeue_bulk.
  destruct (_ || _); [done|].
  destruct (Z.gtb_spec ov n); [lia|].
  destruct (n >? buffer_size rb); [done|].
  match goal with |- context [dequeue_loop ?k ?i ?kp ?p items rb] =>
    pose proof (dequeue_loop_out k i kp p items rb) as Ho;
    destruct (dequeue_loop k i kp p items rb) end.
  simpl in *. by rewrite Ho.
Qed.

(** X6. A bulk [dequeue] whose overlap equals its length retires nothing:
    the buffer after the call is the buffer before, and flag and output
    array are those of the bulk [front] of that length. *)
Theorem dequeue_with_full_overlap_is_front rb items (n : Z) :
  dequeue_bulk rb items n n
  = ((front_bulk rb items n).1, (front_bulk rb items n).2, rb).
Proof.
  unfold front_bulk, dequeue_bulk.
  replace (n >? n) with false by (by rewrite Z.gtb_ltb, Z.ltb_irrefl).
  rewrite orb_false_r.
  destruct (_ || _); [done|].
  destruct (n >? buffer_size rb); [done|].
  rewrite Z.sub_diag. change (size_t 0) with 0.
  pose proof (dequeue_loop_out (Z.to_nat n) 0 0 (buffer_head rb) items rb) as Ho.
  pose proof (dequeue_loop_keep_all (Z.to_nat n) 0 (buffer_head rb) items rb)
    as Hk.
  destruct (dequeue_loop _ _ _ _ _ _) as [out rb']. simpl in *.
  rewrite Ho, Hk by lia. done.
Qed.

(** ** Bulk calls against runs of single calls *)

Lemma dequeue_loop_retires (n : nat) : ∀ idx keep pos items rb,
  buffer_length rb ≠ 0 →
  Z.of_nat n ≤ buffer_size rb < 2 ^ SIZE_WIDTH →
  idx + Z.of_nat n ≤ keep →
  (dequeue_loop n idx keep pos items rb).2 = (dequeue_many n rb).2.
Proof.
  induction n as [|n IH]; intros idx keep pos items rb Hcap Hsize Hkeep;
    [done|].
  cbn [dequeue_loop dequeue_many].
  destruct (Z.ltb_spec idx keep); [|lia].
  unfold dequeue, empty.
  destruct (Z.eqb_spec (buffer_length rb) 0); [done|].
  destruct (Z.eqb_spec (buffer_size rb) 0); [lia|].
  rewrite IH; simpl; rewrite ?size_t_small by lia; try lia.
  by destruct (dequeue_many n _).
Qed.

Lemma dequeue_many_take (n : nat) : ∀ rb,
  allocated rb → invariant rb → Z.of_nat n ≤ buffer_size rb →
  (dequeue_many n rb).1 = Some <$> take n (contents rb).
Proof.
  induction n as [|n IH]; intros rb Hal Hinv Hn; [done|].
  destruct (dequeue_nonempty rb Hal Hinv) as (item & Hd & Hc & Hs); [lia|].
  destruct (dequeue_preserves rb Hal Hinv) as [Hal1 Hinv1].
  simpl. destruct (dequeue rb) as [o rb1]. simpl in *.
  specialize (IH rb1 Hal1 Hinv1).
  destruct (dequeue_many n rb1) as [os rb2]. simpl in *.
  rewrite Hd, IH, Hc by lia. done.
Qed.

(** X7. On an allocated buffer satisfying the invariants, a bulk
    [dequeue] of [length] stored elements without overlap is the same as
    [length] single [dequeue]s: it returns [true], the first [length]
    cells of the output hold the values the single calls return, in that
    order, and the buffer afterwards is the one they leave. *)
Theorem bulk_dequeue_is_repeated_dequeue rb items (n : Z) :
  allocated rb → invariant rb → 0 < buffer_length rb →
  0 ≤ n ≤ buffer_size rb → n ≤ Z.of_nat (Datatypes.length items) →
  ∃ out,
    dequeue_bulk rb items n 0 = (true, out, (dequeue_many (Z.to_nat n) rb).2)
    ∧ Some <$> take (Z.to_nat n) out = (dequeue_many (Z.to_nat n) rb).1
    ∧ drop (Z.to_nat n) out = drop (Z.to_nat n) items.
Proof.
  intros Hal Hinv Hcap Hn Hitems.
  pose proof Hal as [Hlen Hmax]. pose proof Hinv as (Hsize & Hidx & Htail).
  pose proof ptrdiff_lt_size as Hp.
  destruct Hidx as [Hh Ht]; [done|].
  unfold dequeue_bulk.
  destruct (Z.gtb_spec n (buffer_length rb)); [lia|].
  destruct (Z.eqb_spec (buffer_length rb) 0); [lia|].
  destruct (Z.gtb_spec 0 n); [lia|].
  destruct (Z.gtb_spec n (buffer_size rb)); [lia|]. simpl.
  rewrite Z.sub_0_r, (size_t_small n) by lia.
  pose proof (dequeue_loop_retires (Z.to_nat n) 0 n (buffer_head rb) items rb)
    as Hr.
  pose proof (dequeue_loop_items (Z.to_nat n) 0 n (buffer_head rb) items rb)
    as Hi.
  destruct (dequeue_loop _ _ _ _ _ _) as [out rb']. simpl in *.
  rewrite Hr, Hi by lia.
  eexists. split; [done|].
  rewrite take_app_length', drop_app_length' by (by rewrite length_read_from).
  split; [|done].
  rewrite dequeue_many_take by (done || lia).
  unfold contents. by rewrite read_from_take by lia.
Qed.

Lemma enqueue_not_full rb (x : T) :
  buffer_length rb ≠ 0 → buffer_size rb < buffer_length rb →
  enqueue rb x = (true, push_back rb x).
Proof.
  intros Hcap Hroom. unfold enqueue, full.
  destruct (Z.eqb_spec (buffer_length rb) 0); [done|].
  destruct (Z.geb_spec (buffer_size rb) (buffer_length rb)); [lia|]. done.
Qed.

Lemma enqueue_loop_singles (n : nat) : ∀ (i : nat) items rb,
  allocated rb → invariant rb →
  buffer_size rb + Z.of_nat n ≤ buffer_length rb →
  (i + n ≤ Datatypes.length items)%nat →
  enqueue_loop n (Z.of_nat i) items rb
  = (enqueue_all rb (take n (drop i items))).2.
Proof.
  induction n as [|n IH]; intros i items rb Hal Hinv Hroom Hitems; [done|].
  destruct (lookup_lt_is_Some_2 items i) as [x Hx]; [lia|].
  rewrite (drop_S _ x) by done.
  cbn [enqueue_loop take enqueue_all].
  assert (Hb : buf_at items (Z.of_nat i) = x)
    by (unfold buf_at; by rewrite Nat2Z.id, Hx).
  pose proof Hinv as (Hsize & _).
  pose proof (enqueue_preserves rb x Hal Hinv) as Hpres.
  destruct (enqueue_with_room rb x Hal Hinv) as (_ & _ & Hs); [lia|].
  rewrite enqueue_not_full in Hpres, Hs |- * by lia.
  simpl in Hpres, Hs. destruct Hpres as [Hal1 Hinv1].
  rewrite Hb. replace (Z.of_nat i + 1) with (Z.of_nat (S i)) by lia.
  rewrite IH; [| done | done | simpl; rewrite Hs; lia | lia].
  by destruct (enqueue_all _ _).
Qed.

Lemma enqueue_bulk_with_room rb items (n : Z) :
  allocated rb → invariant rb →
  0 ≤ n → buffer_size rb + n < buffer_length rb →
  n ≤ Z.of_nat (Datatypes.length items) →
  enqueue_bulk rb items n
  = (true, (enqueue_all rb (take (Z.to_nat n) items)).2)
  ∧ contents (enqueue_bulk rb items n).2
    = contents rb ++ take (Z.to_nat n) items
  ∧ buffer_size (enqueue_bulk rb items n).2 = buffer_size rb + n.
Proof.
  intros Hal Hinv Hn Hroom Hitems. set (batch := take (Z.to_nat n) items).
  pose proof Hal as [Hlen Hmax]. pose proof Hinv as (Hsize & _).
  pose proof ptrdiff_lt_size as Hp.
  assert (Hbulk : enqueue_bulk rb items n = (true, (enqueue_all rb batch).2)).
  { unfold enqueue_bulk.
    destruct (Z.gtb_spec n (buffer_length rb)); [lia|].
    destruct (Z.eqb_spec (buffer_length rb) 0); [lia|]. simpl.
    rewrite (size_t_small (buffer_size rb + n)) by lia.
    destruct (Z.geb_spec (buffer_size rb + n) (buffer_length rb)); [lia|].
    by rewrite (enqueue_loop_singles _ 0) by (done || lia). }
  assert (Hbatch : Z.of_nat (Datatypes.length batch) = n)
    by (unfold batch; rewrite length_take; lia).
  destruct (enqueue_all_with_room batch rb Hal Hinv)
    as (_ & Hc & Hs & _); [lia|].
  rewrite Hbulk. simpl. rewrite Hc, Hs. split_and!; [done..|lia].
Qed.

(** X1. On an allocated buffer satisfying the invariants, a bulk
    [enqueue] of a batch that leaves at least one cell free
    ([count + length < capacity]) is the same as enqueuing the batch one
    element at a time: it returns [true], the buffer afterwards is the
    one the single calls leave, the batch follows the stored elements in
    order, and the count grows by [length]. *)
Theorem bulk_enqueue_with_room_is_repeated_enqueue rb items (n : Z) :
  allocated rb → invariant rb →
  0 ≤ n → buffer_size rb + n < buffer_length rb →
  n ≤ Z.of_nat (Datatypes.length items) →
  let batch := take (Z.to_nat n) items in
  enqueue_bulk rb items n = (true, (enqueue_all rb batch).2)
  ∧ contents (enqueue_bulk rb items n).2 = contents rb ++ batch
  ∧ size (enqueue_bulk rb items n).2 = size rb + n.
Proof. intros. by apply enqueue_bulk_with_room. Qed.

(** ** The bulk [enqueue] that evicts *)

Lemma read_from_app b cap pos (k n : nat) :
  0 ≤ pos < cap →
  read_from b cap pos (k + n)
  = read_from b cap pos k
    ++ read_from b cap ((pos + Z.of_nat k) mod cap) n.
Proof.
  intros Hpos.
  rewrite <- (take_drop k (read_from b cap pos (k + n))).
  rewrite read_from_take by lia. by rewrite read_from_drop.
Qed.

Lemma mod_add_l3 (cap a b c : Z) :
  (a mod cap + b + c) mod cap = (a + b + c) mod cap.
Proof. rewrite <- Z.add_assoc, mod_add_l. f_equal. lia. Qed.

(** The writing loop leaves alone every cell it does not reach: the
    cells [n + d] places past the tail, as long as [n + d] stays below
    the capacity. *)
Lemma enqueue_loop_untouched (n : nat) : ∀ idx items rb (d : Z),
  0 < buffer_length rb ≤ PTRDIFF_MAX →
  0 ≤ buffer_tail rb < buffer_length rb →
  0 ≤ d → Z.of_nat n + d < buffer_length rb →
  buf_at (buffer (enqueue_loop n idx items rb))
         ((buffer_tail rb + Z.of_nat n + d) mod buffer_length rb)
  = buf_at (buffer rb)
           ((buffer_tail rb + Z.of_nat n + d) mod buffer_length rb).
Proof.
  induction n as [|n IH]; intros idx items rb d Hcap Htail Hd Hnd; [done|].
  pose proof ptrdiff_lt_size as Hp.
  cbn [enqueue_loop].
  specialize (IH (idx + 1) items (push_back rb (buf_at items idx)) d).
  simpl in IH. rewrite (size_t_small (buffer_tail rb + 1)) in IH by lia.
  rewrite !mod_add_l3 in IH.
  replace (buffer_tail rb + 1 + Z.of_nat n + d)
    with (buffer_tail rb + Z.of_nat (S n) + d) in IH by lia.
  rewrite IH by (try apply mod_in_range; lia).
  apply buf_at_set_ne; [lia | apply mod_in_range; lia |].
  rewrite <- (Z.mod_small (buffer_tail rb) (buffer_length rb)) at 1 by lia.
  replace (buffer_tail rb + Z.of_nat (S n) + d)
    with (buffer_tail rb + (Z.of_nat (S n) + d)) by lia.
  intros Heq. symmetry in Heq. revert Heq. apply mod_apart. lia.
Qed.

Lemma read_from_untouched (k : nat) : ∀ (n : nat) idx items rb (d : Z),
  0 < buffer_length rb ≤ PTRDIFF_MAX →
  0 ≤ buffer_tail rb < buffer_length rb →
  0 ≤ d → Z.of_nat n + d + Z.of_nat k ≤ buffer_length rb →
  read_from (buffer (enqueue_loop n idx items rb)) (buffer_length rb)
            ((buffer_tail rb + Z.of_nat n + d) mod buffer_length rb) k
  = read_from (buffer rb) (buffer_length rb)
              ((buffer_tail rb + Z.of_nat n + d) mod buffer_length rb) k.
Proof.
  induction k as [|k IH]; intros n idx items rb d Hcap Htail Hd Hfit; [done|].
  cbn [read_from]. f_equal.
  - apply enqueue_loop_untouched; lia.
  - rewrite mod_add_l.
    replace (buffer_tail rb + Z.of_nat n + d + 1)
      with (buffer_tail rb + Z.of_nat n + (d + 1)) by lia.
    apply IH; lia.
Qed.

(** The cells the writing loop fills, read back from the old tail. *)
Lemma enqueue_loop_written (n : nat) : ∀ (i : nat) items rb,
  0 < buffer_length rb ≤ PTRDIFF_MAX →
  0 ≤ buffer_tail rb < buffer_length rb →
  Z.of_nat (Datatypes.length (buffer rb)) = buffer_length rb →
  Z.of_nat n ≤ buffer_length rb →
  (i + n ≤ Datatypes.length items)%nat →
  read_from (buffer (enqueue_loop n (Z.of_nat i) items rb))
            (buffer_length rb) (buffer_tail rb) n
  = take n (drop i items).
Proof.
  induction n as [|n IH]; intros i items rb Hcap Htail Hlen Hn Hitems; [done|].
  pose proof ptrdiff_lt_size as Hp.
  destruct (lookup_lt_is_Some_2 items i) as [x Hx]; [lia|].
  rewrite (drop_S _ x) by done.
  assert (Hb : buf_at items (Z.of_nat i) = x)
    by (unfold buf_at; by rewrite Nat2Z.id, Hx).
  cbn [enqueue_loop read_from take]. rewrite Hb.
  replace (Z.of_nat i + 1) with (Z.of_nat (S i)) by lia.
  set (rb1 := push_back rb x).
  assert (Ht1 : buffer_tail rb1 = (buffer_tail rb + 1) mod buffer_length rb)
    by (simpl; by rewrite size_t_small by lia).
  assert (Hl1 : buffer_length rb1 = buffer_length rb) by done.
  assert (Hr1 : 0 ≤ buffer_tail rb1 < buffer_length rb1)
    by (rewrite Ht1, Hl1; apply mod_in_range; lia).
  f_equal.
  - pose proof (enqueue_loop_untouched n (Z.of_nat (S i)) items rb1
                  (buffer_length rb - 1 - Z.of_nat n)) as Hu.
    specialize (Hu ltac:(rewrite Hl1; lia) Hr1 ltac:(lia)
                   ltac:(rewrite Hl1; lia)).
    rewrite Hl1, Ht1, !mod_add_l3 in Hu.
    replace (buffer_tail rb + 1 + Z.of_nat n
             + (buffer_length rb - 1 - Z.of_nat n))
      with (buffer_tail rb + 1 * buffer_length rb) in Hu by lia.
    rewrite Z.mod_add, Z.mod_small in Hu by lia.
    rewrite Hu. unfold rb1. simpl. apply buf_at_set_eq. lia.
  - rewrite <- Ht1, <- Hl1. apply IH; rewrite ?Hl1; try lia.
    unfold rb1. simpl. rewrite length_buf_set. lia.
Qed.

(** The contents after a bulk [enqueue] that takes the evicting branch. *)
Lemma enqueue_bulk_evicting rb items (n : Z) :
  allocated rb → invariant rb → 0 < buffer_length rb →
  0 ≤ n ≤ buffer_length rb → buffer_length rb ≤ buffer_size rb + n →
  n ≤ Z.of_nat (Datatypes.length items) →
  (enqueue_bulk rb items n).1 = true
  ∧ buffer_size (enqueue_bulk rb items n).2 = buffer_size rb
  ∧ contents (enqueue_bulk rb items n).2
    = if n <=? buffer_size rb
      then drop (Z.to_nat n) (contents rb) ++ take (Z.to_nat n) items
      else drop (Z.to_nat (n - buffer_size rb)) (take (Z.to_nat n) items).
Proof.
  intros [Hlen Hmax] (Hsize & Hidx & Htail) Hcap Hn Hevict Hitems.
  pose proof ptrdiff_lt_size as Hp.
  destruct Hidx as [Hh Ht]; [done|].
  unfold enqueue_bulk.
  destruct (Z.gtb_spec n (buffer_length rb)); [lia|].
  destruct (Z.eqb_spec (buffer_length rb) 0); [lia|]. simpl.
  rewrite (size_t_small (buffer_size rb + n)) by lia.
  destruct (Z.geb_spec (buffer_size rb + n) (buffer_length rb)); [|lia].
  set (rb1 := retire rb n).
  pose proof (enqueue_loop_fields (Z.to_nat n) 0 items rb1) as Hf.
  pose proof (enqueue_loop_written (Z.to_nat n) 0 items rb1) as Hw.
  simpl in Hf, Hw.
  destruct Hf as (H1 & H2 & H3 & H4 & H5);
    [lia | lia | apply size_t_range |].
  rewrite (size_t_small (buffer_head rb + n)) in H2 by lia.
  rewrite Z2Nat.id in H4 by lia. rewrite size_t_add_l in H4.
  replace (buffer_size rb - n + n) with (buffer_size rb) in H4 by lia.
  rewrite size_t_small in H4 by lia.
  specialize (Hw ltac:(lia) ltac:(lia) ltac:(lia) ltac:(lia) ltac:(lia)).
  rewrite drop_0 in Hw. change (Z.of_nat 0) with 0 in Hw.
  split; [done|]. split; [done|].
  unfold contents. rewrite H1, H2, H4.
  set (bufF := buffer (enqueue_loop (Z.to_nat n) 0 items rb1)) in *.
  destruct (Z.leb_spec n (buffer_size rb)) as [Hle|Hgt].
  - (* the [n] oldest elements go, the batch follows the others *)
    replace (Z.to_nat (buffer_size rb))
      with (Z.to_nat (buffer_size rb - n) + Z.to_nat n)%nat by lia.
    rewrite read_from_app by (apply mod_in_range; lia).
    rewrite mod_add_l, Z2Nat.id by lia.
    replace (buffer_head rb + n + (buffer_size rb - n))
      with (buffer_head rb + buffer_size rb) by lia.
    rewrite <- Htail, Hw. f_equal.
    pose proof (read_from_untouched (Z.to_nat (buffer_size rb - n))
                  (Z.to_nat n) 0 items rb1
                  (buffer_length rb - buffer_size rb)) as Hu.
    simpl in Hu. fold bufF in Hu.
    rewrite Z2Nat.id, Htail, !mod_add_l3 in Hu by lia.
    replace (buffer_head rb + buffer_size rb + n
             + (buffer_length rb - buffer_size rb))
      with (buffer_head rb + n + 1 * buffer_length rb) in Hu by lia.
    rewrite Z.mod_add in Hu by lia.
    rewrite Hu by lia.
    replace (Z.to_nat (buffer_size rb - n) + Z.to_nat n)%nat
      with (Z.to_nat n + Z.to_nat (buffer_size rb - n))%nat by lia.
    rewrite read_from_drop, Z2Nat.id by lia. done.
  - (* fewer stored than written: what is kept is the end of the batch *)
    rewrite <- Hw.
    replace (read_from bufF (buffer_length rb) (buffer_tail rb) (Z.to_nat n))
      with (read_from bufF (buffer_length rb) (buffer_tail rb)
              (Z.to_nat (n - buffer_size rb) + Z.to_nat (buffer_size rb)))
      by (f_equal; lia).
    rewrite read_from_drop, Z2Nat.id by lia.
    rewrite Htail, mod_add_l. do 2 f_equal. lia.
Qed.

(** X2. On an allocated buffer satisfying the invariants, a bulk
    [enqueue] with [length <= count] and [count + length >= capacity]
    returns [true], drops exactly the [length] oldest elements, keeps the
    others in order and puts the batch after them; the count is what it
    was. This is also what happens when the batch would just fit
    ([count + length = capacity]). *)
Theorem bulk_enqueue_evicts_oldest rb items (n : Z) :
  allocated rb → invariant rb → 0 < buffer_length rb →
  0 ≤ n ≤ buffer_size rb → buffer_length rb ≤ buffer_size rb + n →
  n ≤ Z.of_nat (Datatypes.length items) →
  (enqueue_bulk rb items n).1 = true
  ∧ size (enqueue_bulk rb items n).2 = size rb
  ∧ contents (enqueue_bulk rb items n).2
    = drop (Z.to_nat n) (contents rb) ++ take (Z.to_nat n) items.
Proof.
  intros Hal Hinv Hcap Hn Hevict Hitems.
  pose proof Hinv as (Hsize & _).
  destruct (enqueue_bulk_evicting rb items n) as (H1 & H2 & H3);
    try done; try lia.
  destruct (Z.leb_spec n (buffer_size rb)); [|lia]. done.
Qed.

(** X3. On an allocated buffer satisfying the invariants, a bulk
    [enqueue] of a batch longer than the count, with
    [count + length >= capacity], returns [true] and leaves the count
    what it was: all stored elements are gone and of the batch only its
    last [count] elements are stored. A batch as long as the capacity,
    written to an empty buffer, leaves the buffer empty. *)
Theorem bulk_enqueue_keeps_count rb items (n : Z) :
  allocated rb → invariant rb → 0 < buffer_length rb →
  buffer_size rb < n → n ≤ buffer_length rb →
  buffer_length rb ≤ buffer_size rb + n →
  n ≤ Z.of_nat (Datatypes.length items) →
  (enqueue_bulk rb items n).1 = true
  ∧ size (enqueue_bulk rb items n).2 = size rb
  ∧ contents (enqueue_bulk rb items n).2
    = drop (Z.to_nat (n - buffer_size rb)) (take (Z.to_nat n) items)
  ∧ (buffer_size rb = 0 → empty (enqueue_bulk rb items n).2 = true).
Proof.
  intros Hal Hinv Hcap Hlt Hn Hevict Hitems.
  pose proof Hinv as (Hsize & _).
  destruct (enqueue_bulk_evicting rb items n) as (H1 & H2 & H3);
    try done; try lia.
  destruct (Z.leb_spec n (buffer_size rb)); [lia|].
  split_and!; try done.
  intros Hz. unfold empty. by rewrite H2, Hz.
Qed.

(** ** The buffer as a queue *)







End WithElement.

(** ** The properties at concrete buffers of integers *)

Lemma fresh4_ok :
  allocated (construct (T:=Z) 4) ∧ invariant (construct (T:=Z) 4).
Proof. unfold allocated, invariant. simpl. split_and!; by vm_compute. Defined.

Lemma bulk_enqueue_with_room_is_repeated_enqueue_witness :
  enqueue_bulk wrapped [7; 8; 9] 2 = (true, (enqueue_all wrapped [7; 8]).2)
  ∧ contents (enqueue_bulk wrapped [7; 8; 9] 2).2 = [9; 7; 8]
  ∧ size (enqueue_bulk wrapped [7; 8; 9] 2).2 = 3.
Proof.
  destruct wrapped_ok as [Hal Hinv].
  apply (bulk_enqueue_with_room_is_repeated_enqueue wrapped [7; 8; 9] 2
           Hal Hinv); by vm_compute.
Defined.

Lemma bulk_enqueue_evicts_oldest_witness :
  contents full3 = [10; 20; 30]
  ∧ (enqueue_bulk full3 [1; 2] 2).1 = true
  ∧ size (enqueue_bulk full3 [1; 2] 2).2 = 3
  ∧ contents (enqueue_bulk full3 [1; 2] 2).2 = [30; 1; 2].
Proof.
  destruct full3_ok as [Hal Hinv].
  split; [reflexivity|].
  apply (bulk_enqueue_evicts_oldest full3 [1; 2] 2 Hal Hinv); by vm_compute.
Defined.

Lemma bulk_enqueue_keeps_count_witness :
  ((enqueue_bulk wrapped [7; 8; 9] 3).1 = true
   ∧ size (enqueue_bulk wrapped [7; 8; 9] 3).2 = 1
   ∧ contents (enqueue_bulk wrapped [7; 8; 9] 3).2 = [9])
  ∧ ((enqueue_bulk (construct 4) [1; 2; 3; 4] 4).1 = true
     ∧ empty (enqueue_bulk (construct 4) [1; 2; 3; 4] 4).2 = true).
Proof.
  destruct wrapped_ok as [Hal Hinv]. destruct fresh4_ok as [Hal4 Hinv4].
  split.
  - destruct (bulk_enqueue_keeps_count wrapped [7; 8; 9] 3 Hal Hinv)
      as (Hok & Hs & Hc & _); [by vm_compute..|].
    split; [exact Hok|]. split; [exact Hs | exact Hc].
  - destruct (bulk_enqueue_keeps_count (construct 4) [1; 2; 3; 4] 4 Hal4 Hinv4)
      as (Hok & _ & _ & He); [by vm_compute..|].
    split; [exact Hok | apply He; reflexivity].
Defined.

Lemma front_is_peek_witness :
  front wrapped = (dequeue wrapped).1 ∧ front wrapped = Some 9.
Proof.
  destruct wrapped_ok as [_ Hinv].
  destruct (front_is_peek wrapped) as [Hd Hh].
  split; [exact Hd | exact (Hh Hinv)].
Defined.

Lemma front_bulk_copies_oldest_witness :
  front_bulk full3 [0; 0; 0; 0] 2
  = ((dequeue_bulk full3 [0; 0; 0; 0] 2 1).1.1,
     (dequeue_bulk full3 [0; 0; 0; 0] 2 1).1.2)
  ∧ front_bulk full3 [0; 0; 0; 0] 2 = (true, [10; 20; 0; 0]).
Proof.
  destruct full3_ok as [Hal Hinv].
  destruct (front_bulk_copies_oldest full3 [0; 0; 0; 0] 2 1) as [Hd Hr].
  split; [apply Hd; lia|].
  apply (Hr Hal Hinv); by vm_compute.
Defined.

Lemma bulk_dequeue_is_repeated_dequeue_witness :
  ∃ out,
    dequeue_bulk full3 [0; 0; 0] 2 0 = (true, out, (dequeue_many 2 full3).2)
    ∧ Some <$> take 2 out = [Some 10; Some 20]
    ∧ drop 2 out = [0].
Proof.
  destruct full3_ok as [Hal Hinv].
  apply (bulk_dequeue_is_repeated_dequeue full3 [0; 0; 0] 2 Hal Hinv);
    by vm_compute.
Defined.




End RingBufferLaws.

(* ===================================================================== *)
(** * Further properties of the graph *)
(* ===================================================================== *)

Module GraphLaws.
Import GraphModel GraphTheory.

(** ** Graphs built by the constructor and [addEdge] *)

Lemma vec_get_Done {A} (v : list A) (i : Z) (a : A) :
  vec_get v i = Done a ↔ 0 ≤ i ∧ v !! Z.to_nat i = Some a.
Proof.
  unfold vec_get. destruct (Z.ltb_spec i 0).
  - split; [done | lia].
  - destruct (v !! Z.to_nat i) as [a'|]; split; try done.
    + intros [= ->]. done.
    + intros [_ [= ->]]. done.
    + by intros [_ ?].
Qed.

Lemma vec_set_Done {A} (v v' : list A) (i : Z) (x : A) :
  vec_set v i x = Done v' →
  0 ≤ i ∧ (Z.to_nat i < length v)%nat ∧ v' = <[Z.to_nat i := x]> v.
Proof.
  unfold vec_set. destruct (Z.ltb_spec i 0); [done|].
  destruct (v !! Z.to_nat i) as [a|] eqn:Hi; [|done].
  intros [= <-]. apply lookup_lt_Some in Hi. done.
Qed.

Lemma sum_length_push (adj : list (list Edge)) (i : nat) (e : Edge) :
  (i < length adj)%nat →
  sum_list (length <$> alter (λ edges, edges ++ [e]) i adj)
  = S (sum_list (length <$> adj)).
Proof.
  revert i. induction adj as [|es adj IH]; intros i Hi; simpl in Hi; [lia|].
  destruct i as [|i].
  - cbn. rewrite length_app. simpl. lia.
  - specialize (IH i ltac:(lia)). cbn in IH |- *. lia.
Qed.

Lemma adjacent_has_edge g u v :
  adjacent g u v ↔ ∃ w, has_edge g u v w.
Proof.
  split.
  - intros (edges & [t w] & Hget & He & <-). exists w, edges. done.
  - intros (w & edges & Hget & He). exists edges, (mkEdge v w). done.
Qed.

Lemma reachable_symmetric g a b :
  symmetric g → reachable g a b → reachable g b a.
Proof.
  intros Hsym Hreach. induction Hreach as [|x y z Hxy _ IH]; [apply rtc_refl|].
  eapply rtc_r; [exact IH|].
  apply adjacent_has_edge in Hxy as [w Hw].
  apply adjacent_has_edge. exists w. by apply Hsym.
Qed.

Lemma addEdge_keeps_symmetric g u v w :
  well_formed g → symmetric g → symmetric (addEdge g u v w).1.
Proof.
  intros [Hn _] Hsym.
  destruct (decide (0 ≤ u < num_nodes g ∧ 0 ≤ v < num_nodes g))
    as [[Hu Hv]|Hout].
  2: { by rewrite addEdge_out_of_range. }
  rewrite addEdge_in_range by done. simpl.
  set (adj' := push_edge (push_edge (nbr g) u (mkEdge v w)) v (mkEdge u w)).
  assert (Hnew : ∀ x old, 0 ≤ x → nbr g !! Z.to_nat x = Some old →
            adj' !! Z.to_nat x
            = Some (old ++ (if decide (x = u) then [mkEdge v w] else [])
                        ++ (if decide (x = v) then [mkEdge u w] else []))).
  { intros x old Hx Hold. unfold adj'.
    rewrite (push_edges_lookup _ u v w _ old) by (lia || done).
    rewrite Z2Nat.id by lia. done. }
  assert (Hold : ∀ x, 0 ≤ x < num_nodes g → ∃ old, nbr g !! Z.to_nat x = Some old).
  { intros x Hx. apply lookup_lt_is_Some_2. lia. }
  assert (Hmono : ∀ x y w', has_edge g x y w' →
            ∃ edges, adj' !! Z.to_nat x = Some edges ∧ 0 ≤ x
                     ∧ mkEdge y w' ∈ edges).
  { intros x y w' (old & Hget & Hin). apply vec_get_Done in Hget as [Hx Hget].
    eexists. split; [by apply Hnew|]. split; [done|].
    apply elem_of_app. by left. }
  intros x y w' (edges & Hget & Hin). unfold has_edge. simpl. fold adj'.
  apply vec_get_Done in Hget as [Hx Hget]. simpl in Hget. fold adj' in Hget.
  destruct (lookup_lt_is_Some_2 (nbr g) (Z.to_nat x)) as [old Hxold].
  { apply lookup_lt_Some in Hget. unfold adj', push_edge in Hget.
    by rewrite !length_alter in Hget. }
  rewrite (Hnew x old Hx Hxold) in Hget. injection Hget as <-.
  apply elem_of_app in Hin as [Hin|Hin].
  { destruct (Hmono y x w') as (edges & Hl & Hy & He).
    { apply Hsym. exists old. split; [by apply vec_get_Done | done]. }
    exists edges. split; [by apply vec_get_Done | done]. }
  apply elem_of_app in Hin as [Hin|Hin]; destruct (decide _) as [->|];
    try (by apply elem_of_nil in Hin);
    apply list_elem_of_singleton in Hin as [= -> ->].
  - destruct (Hold v Hv) as [oldv Holdv].
    eexists. split; [apply vec_get_Done; split; [lia|]; by apply Hnew; [lia|]|].
    rewrite !elem_of_app. right. right.
    destruct (decide (v = v)); [by left | done].
  - destruct (Hold u Hu) as [oldu Holdu].
    eexists. split; [apply vec_get_Done; split; [lia|]; by apply Hnew; [lia|]|].
    rewrite !elem_of_app. right. left.
    destruct (decide (u = u)); [by left | done].
Qed.

Lemma addEdge_keeps_degree g u v w :
  well_formed g →
  Z.of_nat (total_degree g) = 2 * getNumEdges g →
  Z.of_nat (total_degree (addEdge g u v w).1)
  = 2 * getNumEdges (addEdge g u v w).1.
Proof.
  intros [Hn _] Hdeg.
  destruct (decide (0 ≤ u < num_nodes g ∧ 0 ≤ v < num_nodes g))
    as [[Hu Hv]|Hout].
  2: { by rewrite addEdge_out_of_range. }
  rewrite addEdge_in_range by done.
  unfold total_degree, getNumEdges, push_edge in *. simpl.
  rewrite !sum_length_push by (rewrite ?length_alter; lia). lia.
Qed.

(** X11. Every graph obtained from [Graph(n)], [n >= 0], by any sequence
    of [addEdge] calls, failed ones included, has [n] adjacency lists
    whose entries all end at a node; holds [(u, w)] in [adjacency[v]]
    whenever it holds [(v, w)] in [adjacency[u]]; and has twice
    [getNumEdges()] adjacency entries in all. So reachability in it is
    symmetric. *)
Theorem built_graph_is_undirected (n : Z) (calls : list (Z * Z * double)) :
  0 ≤ n →
  let g := (addEdges (construct n) calls).1 in
  num_nodes g = n
  ∧ well_formed g
  ∧ symmetric g
  ∧ Z.of_nat (total_degree g) = 2 * getNumEdges g
  ∧ ∀ a b, reachable g a b → reachable g b a.
Proof.
  intros Hn g.
  assert (H : num_nodes g = n ∧ well_formed g ∧ symmetric g
              ∧ Z.of_nat (total_degree g) = 2 * getNumEdges g).
  { unfold g. clear g.
    induction calls as [|[[u v] w] calls IH] using rev_ind.
    - split; [done|]. split; [by apply well_formed_construct|]. split.
      + intros x y w (edges & Hget & Hin).
        apply vec_get_Done in Hget as [_ Hget]. simpl in Hget.
        apply lookup_replicate in Hget as [-> _]. by apply elem_of_nil in Hin.
      + unfold total_degree, getNumEdges. simpl.
        assert (Hz : ∀ k, sum_list (length <$> replicate k (@nil Edge)) = O)
          by (induction k as [|k IHk]; [done | cbn in *; by rewrite IHk]).
        rewrite Hz. lia.
    - rewrite addEdges_snoc.
      destruct (addEdges (construct n) calls) as [g1 log]. simpl in IH.
      destruct IH as (Hnum & Hwf & Hsym & Hdeg).
      pose proof (well_formed_addEdge g1 u v w Hwf) as Hwf'.
      pose proof (addEdge_keeps_symmetric g1 u v w Hwf Hsym) as Hsym'.
      pose proof (addEdge_keeps_degree g1 u v w Hwf Hdeg) as Hdeg'.
      assert (Hnum' : num_nodes (addEdge g1 u v w).1 = n).
      { unfold addEdge. by destruct (_ || _). }
      destruct (addEdge g1 u v w) as [g2 r]. done. }
  destruct H as (Hnum & Hwf & Hsym & Hdeg).
  split_and!; try done. intros a b. by apply reachable_symmetric.
Qed.

(** ** A query leaves the topology alone *)

Lemma relax_topology (edges : list Edge) (currentDist from : Z) : ∀ fr fr',
  relax edges currentDist from fr = Done fr' →
  nbr (self fr') = nbr (self fr)
  ∧ num_nodes (self fr') = num_nodes (self fr)
  ∧ num_edges (self fr') = num_edges (self fr).
Proof.
  induction edges as [|e edges IH]; intros fr fr' Hrun.
  - by injection Hrun as <-.
  - cbn [relax] in Hrun.
    destruct (vec_get (used fr) (to e)) as [u| |]; try done.
    cbn [mbind outcome_bind] in Hrun.
    destruct u; [by apply IH|].
    destruct (vec_get (dist (self fr)) (to e)) as [d| |]; try done.
    cbn [mbind outcome_bind] in Hrun.
    destruct (_ || _); [|by apply IH].
    destruct (vec_set (dist (self fr)) _ _) as [dist'| |]; try done.
    cbn [mbind outcome_bind] in Hrun.
    destruct (vec_set (prev (self fr)) _ _) as [prev'| |]; try done.
    cbn [mbind outcome_bind] in Hrun.
    destruct (vec_get dist' (to e)) as [d'| |]; try done.
    cbn [mbind outcome_bind] in Hrun.
    by apply IH in Hrun.
Qed.

Lemma dijkstra_loop_topology (fuel : nat) : ∀ fr fr',
  dijkstra_loop fuel fr = Done fr' →
  nbr (self fr') = nbr (self fr)
  ∧ num_nodes (self fr') = num_nodes (self fr)
  ∧ num_edges (self fr') = num_edges (self fr).
Proof.
  induction fuel as [|fuel IH]; intros fr fr' Hrun.
  - simpl in Hrun. destruct (fringe fr) as [|[? ?] ?]; [|done].
    by injection Hrun as <-.
  - cbn [dijkstra_loop] in Hrun.
    destruct (fringe fr) as [|[currentDist from] popped];
      [by injection Hrun as <-|].
    destruct (vec_get (used fr) from) as [u| |]; try done.
    cbn [mbind outcome_bind] in Hrun.
    destruct u; [by apply IH in Hrun|].
    destruct (vec_set (used fr) from true) as [used'| |]; try done.
    cbn [mbind outcome_bind] in Hrun.
    destruct (vec_get (nbr (self fr)) from) as [edges| |]; try done.
    cbn [mbind outcome_bind] in Hrun.
    destruct (relax edges currentDist from _) as [fr1| |] eqn:Hrelax; try done.
    cbn [mbind outcome_bind] in Hrun.
    apply relax_topology in Hrelax. apply IH in Hrun. simpl in *.
    destruct Hrelax as (-> & -> & ->) || destruct Hrelax as (? & ? & ?).
    all: destruct Hrun as (? & ? & ?); split_and!; congruence.
Qed.

Lemma dijkstra_topology (fuel : nat) g source g' :
  dijkstra fuel g source = Done g' →
  nbr g' = nbr g ∧ num_nodes g' = num_nodes g ∧ num_edges g' = num_edges g.
Proof.
  unfold dijkstra. intros Hrun.
  destruct (vec_set _ source 0) as [dist1| |]; try done.
  cbn [mbind outcome_bind] in Hrun.
  destruct (vec_get dist1 source) as [d| |]; try done.
  cbn [mbind outcome_bind] in Hrun.
  destruct (dijkstra_loop fuel _) as [fr| |] eqn:Hloop; try done.
  cbn [mbind outcome_bind] in Hrun. injection Hrun as <-.
  by apply dijkstra_loop_topology in Hloop.
Qed.

Lemma dijkstra_ignores_old_state (fuel : nat) g1 g2 source :
  nbr g1 = nbr g2 → num_nodes g1 = num_nodes g2 → num_edges g1 = num_edges g2 →
  dijkstra fuel g1 source = dijkstra fuel g2 source.
Proof.
  intros Hnbr Hnum Hedges. unfold dijkstra, set_dist_prev.
  by rewrite Hnbr, Hnum, Hedges.
Qed.

(** X13. A query that returns leaves [numNodes], [numEdges] and every
    adjacency list as they were, and the [dist] and [prev] it leaves
    behind do not influence later queries: any query on the graph after
    the call gives the message it gives on the graph before the call. *)
Theorem query_leaves_topology (fuel : nat) g a b g' message :
  shortestPath fuel g a b = Done (g', message) →
  nbr g' = nbr g
  ∧ num_nodes g' = num_nodes g
  ∧ getNumEdges g' = getNumEdges g
  ∧ ∀ (fuel' : nat) a' b',
      message_of (shortestPath fuel' g' a' b')
      = message_of (shortestPath fuel' g a' b').
Proof.
  intros Hrun.
  assert (Htop : nbr g' = nbr g ∧ num_nodes g' = num_nodes g
                 ∧ num_edges g' = num_edges g).
  { unfold shortestPath in Hrun.
    destruct (a =? b); [by injection Hrun as <- _|].
    destruct (dijkstra fuel g a) as [g1| |] eqn:Hd; try done.
    cbn [mbind outcome_bind] in Hrun.
    destruct (recover_path fuel (prev g1) b []) as [path| |]; try done.
    cbn [mbind outcome_bind] in Hrun.
    apply dijkstra_topology in Hd.
    by destruct (_ =? 1); injection Hrun as <- _. }
  destruct Htop as (Hnbr & Hnum & Hedges).
  split_and!; try done.
  intros fuel' a' b'. unfold shortestPath.
  destruct (a' =? b'); [done|].
  by rewrite (dijkstra_ignores_old_state fuel' g' g a').
Qed.

(** ** The message of a path *)

Lemma string_app_assoc (s1 s2 s3 : string) :
  (s1 +:+ s2) +:+ s3 = s1 +:+ (s2 +:+ s3).
Proof.
  induction s1 as [|c s1 IH]; [done|].
  change (String c ((s1 +:+ s2) +:+ s3) = String c (s1 +:+ s2 +:+ s3)).
  by rewrite IH.
Qed.

Lemma build_message_tail (path : list Z) : ∀ (idx : Z) (acc : string),
  0 < idx → path ≠ [] →
  build_message idx path acc
  = acc +:+ "-" +:+ String.concat "-" (to_string <$> path).
Proof.
  induction path as [|x rest IH]; intros idx acc Hidx Hne; [done|].
  cbn [build_message]. destruct (Z.eqb_spec idx 0); [lia|]. cbn [negb].
  destruct rest as [|y rest].
  - simpl. by rewrite string_app_assoc.
  - rewrite IH by (lia || done).
    change (String.concat "-" (to_string <$> x :: y :: rest))
      with (to_string x +:+ "-"
            +:+ String.concat "-" (to_string <$> y :: rest)).
    by rewrite !string_app_assoc.
Qed.

Lemma build_message_concat (path : list Z) :
  build_message 0 path "" = String.concat "-" (to_string <$> path).
Proof.
  destruct path as [|x [|y rest]]; [reflexivity | reflexivity |].
  change (build_message 0 (x :: y :: rest) "")
    with (build_message (0 + 1) (y :: rest) ("" +:+ to_string x)).
  rewrite build_message_tail by (lia || done). reflexivity.
Qed.

Lemma is_path_snoc g (path : list Z) (p w : Z) :
  is_path g path → last path = Some p → adjacent g p w →
  is_path g (path ++ [w]).
Proof.
  induction path as [|u rest IH]; [done|]. intros [Hu Hrest] Hlast Hadj.
  destruct rest as [|v rest].
  - injection Hlast as ->. simpl. done.
  - split; [done|]. by apply IH.
Qed.

(** ** The search finalizes exactly the reachable nodes *)

Lemma chained_insert g source (prev order : list Z) (i : nat) (x : Z) :
  (∀ v, v ∈ order → Z.to_nat v ≠ i) →
  chained g source prev order →
  chained g source (<[i := x]> prev) order.
Proof.
  induction order as [|v older IH]; [done|].
  intros Hfresh (Hv & Hcase & Hrest). simpl.
  split; [done|]. split; [|apply IH; [|done]; intros; apply Hfresh; by right].
  rewrite list_lookup_insert_ne by (symmetry; apply Hfresh; by left).
  done.
Qed.

Section Search.
Variables (g : Graph) (source : Z).

Lemma relax_keeps (order : list Z) (edges : list Edge) (currentDist from : Z) :
  ∀ fr fr',
  relax edges currentDist from fr = Done fr' →
  search_inv g source order fr →
  from ∈ order → source ∈ order →
  (∀ e, e ∈ edges → adjacent g from (to e)) →
  search_inv g source order fr'
  ∧ used fr' = used fr
  ∧ (∀ v, covered fr v → covered fr' v)
  ∧ (∀ e, e ∈ edges → covered fr' (to e)).
Proof.
  induction edges as [|e edges IH]; intros fr fr' Hrun Hinv Hfrom Hsrc Hadj.
  { injection Hrun as <-. split_and!; try done.
    intros e He. by apply elem_of_nil in He. }
  cbn [relax] in Hrun.
  destruct (vec_get (used fr) (to e)) as [u| |] eqn:Hu; try done.
  cbn [mbind outcome_bind] in Hrun. apply vec_get_Done in Hu as [Hto Hu].
  assert (Hrest : ∀ e', e' ∈ edges → adjacent g from (to e'))
    by (intros; apply Hadj; by right).
  destruct u.
  { destruct (IH fr fr' Hrun Hinv Hfrom Hsrc Hrest) as (H1 & H2 & H3 & H4).
    split_and!; try done.
    intros e' [->|He']%elem_of_cons; [|by apply H4].
    apply H3. split; [done|]. by left. }
  destruct (vec_get (dist (self fr)) (to e)) as [d| |] eqn:Hd; try done.
  cbn [mbind outcome_bind] in Hrun. apply vec_get_Done in Hd as [_ Hd].
  pose proof Hinv
    as (Hnbr & Hord & Hused & Hch & Hsrcp & Hunused & Hfr & Hdist).
  destruct (Hord from Hfrom) as [Hfrom0 _].
  destruct ((d =? -1) || _) eqn:Hcond.
  2: { apply orb_false_elim in Hcond as [Hd1 _]. apply Z.eqb_neq in Hd1.
       destruct (IH fr fr' Hrun Hinv Hfrom Hsrc Hrest) as (H1 & H2 & H3 & H4).
       split_and!; try done.
       intros e' [->|He']%elem_of_cons; [|by apply H4].
       apply H3. specialize (Hdist _ _ Hd Hd1).
       by rewrite Z2Nat.id in Hdist by lia. }
  destruct (vec_set (dist (self fr)) (to e) _) as [dist'| |] eqn:Hsd;
    try done.
  cbn [mbind outcome_bind] in Hrun.
  destruct (vec_set (prev (self fr)) (to e) from) as [prev'| |] eqn:Hsp;
    try done.
  cbn [mbind outcome_bind] in Hrun.
  destruct (vec_get dist' (to e)) as [d'| |] eqn:Hd'; try done.
  cbn [mbind outcome_bind] in Hrun.
  apply vec_set_Done in Hsd as (_ & Hld & ->).
  apply vec_set_Done in Hsp as (_ & Hlp & ->).
  match type of Hrun with relax _ _ _ ?f = _ => set (fr1 := f) in * end.
  assert (Hmono : ∀ v, covered fr v → covered fr1 v).
  { intros v [Hv [Hv1|(dd & Hdd)]]; (split; [done|]); [by left|].
    right. exists dd. simpl. apply elem_of_pq_emplace. by right. }
  assert (Hnew : covered fr1 (to e)).
  { split; [done|]. right. exists d'. simpl. apply elem_of_pq_emplace.
    by left. }
  assert (Hfresh : ∀ v, v ∈ order → Z.to_nat v ≠ Z.to_nat (to e)).
  { intros v Hv Heq. destruct (Hord v Hv) as [_ Ht]. congruence. }
  assert (Hinv1 : search_inv g source order fr1).
  { unfold search_inv. split_and!; simpl; try done.
    - by apply chained_insert.
    - rewrite list_lookup_insert_ne; [done|]. symmetry. by apply Hfresh.
    - intros i p Hi Hp Hpne.
      destruct (decide (i = Z.to_nat (to e))) as [->|Hne].
      + rewrite list_lookup_insert_eq in Hp by done. injection Hp as <-.
        split; [done|]. rewrite Z2Nat.id by lia. apply Hadj. by left.
      + rewrite list_lookup_insert_ne in Hp by done. by apply Hunused.
    - intros p [->|Hp]%elem_of_pq_emplace.
      + right. exists from. simpl.
        rewrite list_lookup_insert_eq by done. split; [done | lia].
      + destruct (Hfr p Hp) as [?|(q & Hq & Hqne)]; [by left|]. right.
        destruct (decide (Z.to_nat p.2 = Z.to_nat (to e))) as [Heq|Hne].
        * exists from. rewrite Heq, list_lookup_insert_eq by done.
          split; [done | lia].
        * exists q. by rewrite list_lookup_insert_ne.
    - intros i dd Hi Hne.
      destruct (decide (i = Z.to_nat (to e))) as [->|Hni].
      + by rewrite Z2Nat.id by lia.
      + rewrite list_lookup_insert_ne in Hi by done.
        apply Hmono. by eapply Hdist. }
  destruct (IH fr1 fr' Hrun Hinv1 Hfrom Hsrc Hrest) as (H1 & H2 & H3 & H4).
  split_and!; try done.
  - intros v Hv. by apply H3, Hmono.
  - intros e' [->|He']%elem_of_cons; [|by apply H4]. by apply H3.
Qed.

Lemma loop_keeps (fuel : nat) : ∀ fr fr' order,
  dijkstra_loop fuel fr = Done fr' →
  loop_inv g source order fr →
  ∃ order', loop_inv g source order' fr' ∧ fringe fr' = []
            ∧ (length order' ≤ length order + fuel)%nat.
Proof.
  induction fuel as [|fuel IH]; intros fr fr' order Hrun Hinv.
  { simpl in Hrun. destruct (fringe fr) as [|[? ?] ?] eqn:Hf; [|done].
    injection Hrun as <-. exists order. split_and!; [done | done | lia]. }
  cbn [dijkstra_loop] in Hrun.
  destruct (fringe fr) as [|[currentDist from] popped] eqn:Hf.
  { injection Hrun as <-. exists order. split_and!; [done | done | lia]. }
  destruct (vec_get (used fr) from) as [u| |] eqn:Hu; try done.
  cbn [mbind outcome_bind] in Hrun. apply vec_get_Done in Hu as [Hfrom0 Hu].
  destruct Hinv as (Hs & Hsrc0 & Hstart & Hcsrc & Hclosed).
  pose proof Hs as (Hnbr & Hord & Hused & Hch & Hsrcp & Hunused & Hfr & Hdist).
  destruct u.
  - (* the node was finalized before: the entry is dropped *)
    match type of Hrun with dijkstra_loop _ ?f = _ => set (fr0 := f) in * end.
    assert (Hpop : ∀ v, covered fr v → covered fr0 v).
    { intros v [Hv [Hv1|(d & Hd)]]; (split; [done|]); [by left|].
      rewrite Hf in Hd. apply elem_of_cons in Hd as [[= -> ->]|Hd].
      - by left.
      - right. by exists d. }
    destruct (IH fr0 fr' order Hrun) as (order' & ? & ? & ?).
    { unfold loop_inv, search_inv. split_and!; simpl; try done.
      - intros p Hp. apply Hfr. rewrite Hf. by right.
      - intros i d Hi Hd. by apply Hpop, (Hdist i d).
      - destruct Hstart as [?|[-> Hall]]; [by left|]. right. split; [done|].
        intros p Hp. apply Hall. rewrite Hf. by right.
      - by apply Hpop.
      - intros u v Hu' Hadj. by apply Hpop, (Hclosed u v). }
    exists order'. split_and!; [done | done | lia].
  - (* the node is finalized now *)
    destruct (vec_set (used fr) from true) as [used'| |] eqn:Hsu; try done.
    cbn [mbind outcome_bind] in Hrun.
    apply vec_set_Done in Hsu as (_ & Hlu & ->).
    destruct (vec_get (nbr (self fr)) from) as [edges| |] eqn:Hn; try done.
    cbn [mbind outcome_bind] in Hrun.
    destruct (relax edges currentDist from _) as [fr1| |] eqn:Hrelax;
      try done.
    cbn [mbind outcome_bind] in Hrun.
    match type of Hrelax with relax _ _ _ ?f = _ => set (fr0 := f) in * end.
    assert (Hup : ∀ i, used fr !! i = Some true →
              <[Z.to_nat from := true]> (used fr) !! i = Some true).
    { intros i Hi. destruct (decide (Z.to_nat from = i)) as [<-|Hne].
      - by rewrite list_lookup_insert_eq.
      - by rewrite list_lookup_insert_ne. }
    assert (Hpop : ∀ v, covered fr v → covered fr0 v).
    { intros v [Hv [Hv1|(d & Hd)]]; (split; [done|]).
      - left. by apply Hup.
      - rewrite Hf in Hd. apply elem_of_cons in Hd as [[= -> ->]|Hd].
        + left. simpl. by rewrite list_lookup_insert_eq.
        + right. by exists d. }
    assert (Hsrc1 : source ∈ from :: order).
    { destruct Hstart as [?|[_ Hall]]; [by right|].
      apply elem_of_cons. left.
      symmetry. apply (Hall (currentDist, from)). rewrite Hf. by left. }
    assert (Hs0 : search_inv g source (from :: order) fr0).
    { unfold search_inv. split_and!; simpl; try done.
      - intros v [->|Hv]%elem_of_cons.
        + split; [done|]. by rewrite list_lookup_insert_eq.
        + destruct (Hord v Hv) as [Hv0 Hvt]. split; [done|]. by apply Hup.
      - intros i Hi. destruct (decide (i = Z.to_nat from)) as [->|Hne].
        + apply elem_of_cons. left. lia.
        + right. apply Hused. by rewrite list_lookup_insert_ne in Hi.
      - split; [done|]. split; [|done].
        destruct Hstart as [Hin|[-> Hall]].
        + right. destruct (Hord source Hin) as [_ Hst].
          destruct (Hfr (currentDist, from)) as [Heq|(q & Hq & Hqne)].
          { rewrite Hf. by left. }
          { simpl in Heq. subst from. congruence. }
          simpl in Hq. destruct (Hunused _ _ Hu Hq Hqne) as [Hqin Hqadj].
          rewrite Z2Nat.id in Hqadj by lia. by exists q.
        + left. assert (from = source) as ->; [|done].
          apply (Hall (currentDist, from)). rewrite Hf. by left.
      - intros i p Hi Hp Hpne.
        destruct (decide (i = Z.to_nat from)) as [->|Hne].
        { by rewrite list_lookup_insert_eq in Hi. }
        rewrite list_lookup_insert_ne in Hi by done.
        destruct (Hunused i p Hi Hp Hpne). split; [by right | done].
      - intros p Hp. apply Hfr. rewrite Hf. by right.
      - intros i d Hi Hd. by apply Hpop, (Hdist i d). }
    apply (relax_keeps (from :: order)) in Hrelax
      as (Hs1 & Hu1 & Hm1 & He1); [|done|by left|done|].
    2: { intros e He. exists edges, e. split_and!; try done.
         by rewrite <- Hnbr. }
    destruct (IH fr1 fr' (from :: order) Hrun) as (order' & ? & ? & Hlen).
    { unfold loop_inv. split_and!; try done.
      - by left.
      - by apply Hm1, Hpop.
      - intros u v [->|Hu']%elem_of_cons Hadj.
        + destruct Hadj as (edges' & e & Hget & He & <-).
          rewrite <- Hnbr, Hn in Hget. injection Hget as <-. by apply He1.
        + by apply Hm1, Hpop, (Hclosed u v). }
    exists order'. split_and!; [done | done | simpl in Hlen; lia].
Qed.

Lemma reach_in_order (order : list Z) (fr : Frame) :
  loop_inv g source order fr → fringe fr = [] →
  ∀ v, reachable g source v → v ∈ order.
Proof.
  intros (Hs & Hsrc0 & Hstart & Hcsrc & Hclosed) Hempty.
  destruct Hs as (_ & _ & Hused & _).
  assert (Hcov : ∀ v, covered fr v → v ∈ order).
  { intros v [Hv [Hv1|(d & Hd)]].
    - apply Hused in Hv1. by rewrite Z2Nat.id in Hv1 by lia.
    - rewrite Hempty in Hd. by apply elem_of_nil in Hd. }
  apply (rtc_ind_r (λ v, v ∈ order) source).
  - by apply Hcov.
  - intros y z _ Hyz IH. by apply Hcov, (Hclosed y z).
Qed.

(** Following [prev] from a finalized node leads back to the source,
    along edges, within as many steps as there are finalized nodes. *)
Lemma recover_chained (prev : list Z) (order : list Z) :
  chained g source prev order →
  ∀ (v : Z) (acc : list Z) (fuel : nat),
  v ∈ order → (length order ≤ fuel)%nat →
  ∃ chain,
    recover_path fuel prev v acc = Done (acc ++ chain)
    ∧ head chain = Some v ∧ last chain = Some source
    ∧ is_path g (reverse chain).
Proof.
  induction order as [|w older IH]; intros Hch v acc fuel Hv Hfuel.
  { by apply elem_of_nil in Hv. }
  destruct Hch as (Hw & Hcase & Holder).
  apply elem_of_cons in Hv as [->|Hv].
  2: { apply IH; [done | done | simpl in Hfuel; lia]. }
  destruct fuel as [|fuel]; [simpl in Hfuel; lia|].
  cbn [recover_path]. destruct (Z.eqb_spec w (-1)); [lia|].
  destruct Hcase as [[-> Hp]|(p & Hp & Hpne & Hpin & Hadj)].
  - assert (vec_get prev source = Done (-1)) as ->
      by (by apply vec_get_Done).
    cbn [mbind outcome_bind]. rewrite recover_path_end.
    exists [source]. split_and!; done.
  - assert (vec_get prev w = Done p) as -> by (by apply vec_get_Done).
    cbn [mbind outcome_bind].
    destruct (IH Holder p (acc ++ [w]) fuel Hpin) as (chain & Hrun & Hh & Hl & Hpath).
    { simpl in Hfuel. lia. }
    exists (w :: chain). rewrite Hrun, <- app_assoc. split; [done|].
    split; [done|]. split.
    + destruct chain; [done | exact Hl].
    + rewrite reverse_cons. apply (is_path_snoc _ _ p); [done | | done].
      by rewrite last_reverse.
Qed.

Lemma dijkstra_search (fuel : nat) :
  well_formed g → 0 ≤ source < num_nodes g →
  (total_degree g + 1 < fuel)%nat →
  ∃ fr order,
    dijkstra fuel g source = Done (self fr)
    ∧ loop_inv g source order fr ∧ fringe fr = []
    ∧ (length order ≤ fuel)%nat.
Proof.
  intros Hwf Hsrc Hfuel. pose proof Hwf as [Hn Hedges].
  unfold dijkstra.
  rewrite vec_set_in_range by (rewrite length_replicate; lia).
  cbn [mbind outcome_bind].
  match goal with |- context [vec_get ?v source] =>
    assert (vec_get v source = Done 0) as -> end.
  { apply vec_get_Done. split; [lia|].
    apply list_lookup_insert_eq. rewrite length_replicate. lia. }
  cbn [mbind outcome_bind].
  match goal with |- context [dijkstra_loop fuel ?f] => set (fr0 := f) end.
  destruct (dijkstra_loop_ok g source Hwf fuel fr0) as (fr' & Hrun & _ & _).
  { split_and!; simpl; try done;
      rewrite ?length_insert, ?length_replicate; try lia.
    - intros p Hp. apply list_elem_of_singleton in Hp as ->. simpl.
      split; [done | apply rtc_refl].
    - intros i p Hi Hp. apply lookup_replicate in Hi as [-> _]. done. }
  { unfold budget. simpl.
    replace (Z.to_nat (num_nodes g)) with (length (nbr g)) by lia.
    rewrite pending_fresh. unfold total_degree in Hfuel. lia. }
  rewrite Hrun. cbn [mbind outcome_bind].
  destruct (loop_keeps fuel fr0 fr' [] Hrun) as (order & Hinv & Hempty & Hlen).
  { assert (Hcov : covered fr0 source).
    { split; [lia|]. right. exists 0. simpl. by left. }
    unfold loop_inv, search_inv. split_and!; simpl; try done; try lia.
    - intros v Hv. by apply elem_of_nil in Hv.
    - intros i Hi. by apply lookup_replicate in Hi as [? _].
    - apply lookup_replicate_2. lia.
    - intros i p _ Hi Hp. by apply lookup_replicate in Hi as [-> _].
    - intros p Hp. apply list_elem_of_singleton in Hp as ->. by left.
    - intros i d Hi Hd.
      destruct (decide (i = Z.to_nat source)) as [->|Hne].
      + by rewrite Z2Nat.id by lia.
      + rewrite list_lookup_insert_ne in Hi by done.
        by apply lookup_replicate in Hi as [-> _].
    - right. split; [done|]. intros p Hp.
      by apply list_elem_of_singleton in Hp as ->.
    - intros u v Hu. by apply elem_of_nil in Hu. }
  exists fr', order. by split_and!.
Qed.

End Search.

(** X12. For two different nodes [a], [b] of a well-formed graph with [b]
    reachable from [a] along edges, [shortestPath(a, b)] ends (any loop
    budget above the number of adjacency entries plus one is enough) and
    leaves in [message] the ids of a list of at least two nodes joined by
    ["-"]: the list starts at [a], ends at [b], and each of its nodes has
    an edge to the next. The message is not empty. *)
Theorem reachable_target_gets_path g (a b : Z) (fuel : nat) :
  well_formed g →
  0 ≤ a < num_nodes g → 0 ≤ b < num_nodes g → a ≠ b →
  reachable g a b →
  (total_degree g + 1 < fuel)%nat →
  ∃ g' path,
    shortestPath fuel g a b
    = Done (g', String.concat "-" (to_string <$> path))
    ∧ head path = Some a ∧ last path = Some b
    ∧ is_path g path
    ∧ (2 ≤ length path)%nat
    ∧ String.concat "-" (to_string <$> path) ≠ "".
Proof.
  intros Hwf Ha Hb Hne Hreach Hfuel. unfold shortestPath.
  destruct (Z.eqb_spec a b); [done|].
  destruct (dijkstra_search g a fuel Hwf Ha Hfuel)
    as (fr & order & -> & Hinv & Hempty & Hlen).
  cbn [mbind outcome_bind].
  pose proof (reach_in_order g a order fr Hinv Hempty b Hreach) as Hb_in.
  destruct Hinv as ((_ & _ & _ & Hch & _) & _).
  destruct (recover_chained g a (prev (self fr)) order Hch b [] fuel Hb_in Hlen)
    as (chain & -> & Hh & Hl & Hpath).
  cbn [mbind outcome_bind]. simpl app.
  assert (Hlong : (2 ≤ length chain)%nat).
  { destruct chain as [|x [|y chain]]; simpl in *; [done| |lia]. congruence. }
  rewrite length_reverse.
  destruct (Z.eqb_spec (Z.of_nat (length chain)) 1); [lia|].
  exists (self fr), (reverse chain). rewrite build_message_concat.
  split_and!; try done.
  - by rewrite head_reverse.
  - by rewrite last_reverse.
  - by rewrite length_reverse.
  - destruct (reverse chain) as [|x [|y rest]] eqn:Hrev.
    + apply (f_equal length) in Hrev. rewrite length_reverse in Hrev.
      simpl in Hrev. lia.
    + apply (f_equal length) in Hrev. rewrite length_reverse in Hrev.
      simpl in Hrev. lia.
    + change (String.concat "-" (to_string <$> x :: y :: rest))
        with (to_string x +:+ "-"
              +:+ String.concat "-" (to_string <$> y :: rest)).
      by destruct (to_string x).
Qed.

(** ** The properties at concrete graphs *)

Lemma island_reaches_1 : reachable island 0 1.
Proof.
  apply rtc_once. exists [mkEdge 1 (double_lit 1 0)], (mkEdge 1 (double_lit 1 0)).
  split_and!; [reflexivity | by left | reflexivity].
Qed.

Lemma built_graph_is_undirected_witness :
  let g := (addEdges (construct 3)
              [(0, 1, double_lit 1 0); (5, 1, double_lit 1 0);
               (1, 2, double_lit 3 (-2))]).1 in
  num_nodes g = 3
  ∧ well_formed g
  ∧ symmetric g
  ∧ Z.of_nat (total_degree g) = 2 * getNumEdges g
  ∧ ∀ a b, reachable g a b → reachable g b a.
Proof.
  apply (built_graph_is_undirected 3
           [(0, 1, double_lit 1 0); (5, 1, double_lit 1 0);
            (1, 2, double_lit 3 (-2))]).
  lia.
Defined.

Lemma reachable_target_gets_path_witness :
  ∃ g' path,
    shortestPath 4 island 0 1
    = Done (g', String.concat "-" (to_string <$> path))
    ∧ head path = Some 0 ∧ last path = Some 1
    ∧ is_path island path
    ∧ (2 ≤ length path)%nat
    ∧ String.concat "-" (to_string <$> path) ≠ "".
Proof.
  apply (reachable_target_gets_path island 0 1 4);
    [exact island_well_formed | by vm_compute | by vm_compute | lia
    | exact island_reaches_1 | vm_compute; lia].
Defined.

Lemma query_leaves_topology_witness :
  ∃ g',
    shortestPath 4 island 0 1 = Done (g', "0-1")
    ∧ nbr g' = nbr island
    ∧ getNumEdges g' = 1
    ∧ message_of (shortestPath 4 g' 0 2) = Done ""
    ∧ message_of (shortestPath 4 g' 1 0) = Done "1-0".
Proof.
  assert (Hrun : ∃ g', shortestPath 4 island 0 1 = Done (g', "0-1"))
    by (vm_compute; eexists; reflexivity).
  destruct Hrun as [g' Hrun].
  destruct (query_leaves_topology 4 island 0 1 g' "0-1" Hrun)
    as (Hnbr & _ & Hedges & Hlater).
  exists g'. split; [exact Hrun|]. split; [exact Hnbr|].
  split; [rewrite Hedges; reflexivity|].
  split; rewrite Hlater; reflexivity.
Defined.

End GraphLaws.
